(** * bbb-webhooks: the user mapping registry ([userMapping.js])

    A shallow embedding of [bbb-webhooks/userMapping.js]: the in-memory
    index [db], the id allocator [nextID], the redis set and hashes that
    mirror them, and the operations of the [UserMapping] class.

    How the JavaScript is read.

    - [db] is a plain object used as a map from [internalUserID] to the
      mapping stored under it.  Its own properties are an association list
      kept in the order in which [for (k in db)] and [Object.keys(db)]
      enumerate them: array index names in ascending order first, then the
      other names in the order of their creation.  A read [db[k]] of a
      name that is not an own property finds what [db] inherits from
      [Object.prototype] ([db_read]).  The prototype of [db] is taken to be
      the one that [{}] gave it: the assignment [db["__proto__"] = this]
      replaces the prototype instead of creating a property, after which
      [for (k in db)] also enumerates the fields of that mapping, among
      them the redis client, which this file does not define.  A process
      that stores a mapping under ["__proto__"] is therefore outside the
      model, where [db_set] keeps such a mapping as an entry; the
      statements that depend on the difference are made for the states
      that a process reaches without doing so ([within_model]).
    - A mapping object is never written after it has been handed to [save],
      so mappings are values.
    - Every redis call is asynchronous.  A call queues a command together
      with the closure that node runs on its reply; replies come back in
      the order of the commands (one connection), and a reply is one step
      of the event loop.  The effect of a command on the store is applied
      at that step; a command answered with an error has had no effect.
    - Closures are first order: one constructor per function literal of the
      source, holding the variables it captures.  A callback of the caller
      is opaque: it is a name, and calling it is recorded in the trace.
    - The hash of a mapping holds its four fields.  Redis keeps [id] as a
      decimal string that [fromRedis] parses back with [parseInt], and
      ids and [nextID] are Numbers, which hold the integers exactly up to
      2^53 and round beyond ([Number_of], [post_increment], [parseInt],
      [raise]).  The operations are modelled on exact integers, which is
      what the Numbers do as long as every id is a safe integer and
      [nextID] does not pass 2^53 ([Number_of_exact]); the statements
      about ids are made for such processes ([faithful], [within_model]).
    - [config.redis.keys.userMaps] and [config.redis.keys.userMap(id)] come
      from [config.js]; the names are taken to be distinct for distinct
      ids, so the store is a set of ids and a map from id to hash.  The set
      is kept as the list of its members in the order in which SMEMBERS
      answers, which is taken to list a new member last and to stay the
      same while the set does not change. *)

From Stdlib Require Import Ascii String ZArith.
From stdpp Require Import gmap list strings sorting.

#[local] Set Warnings "-register-all,-clear-no-such-hyp".
#[local] Open Scope Z_scope.

(** ** JavaScript values that the operations return *)

Inductive Value :=
| undefined
| number (n : Z)
| array (elements : list Value).

(** Result of a call: it returns a value or throws a [TypeError]. *)
Inductive Completion :=
| returns (v : Value)
| throws.

(** ** Numbers *)

(** The integers that a Number holds exactly, together with their
    neighbours: [Number.isSafeInteger]. *)
Definition safe (z : Z) : Prop := - 9007199254740992 < z < 9007199254740992.

(** The Number for the integer [z]: [z] rounded to a significand of 53
    bits, to the nearest and in a tie to the even one. *)
Definition Number_of (z : Z) : Z :=
  let ulp := 2 ^ Z.max 0 (Z.log2 (Z.abs z) - 52) in
  let q := z / ulp in
  let r := z mod ulp in
  if 2 * r <? ulp then q * ulp
  else if ulp <? 2 * r then (q + 1) * ulp
  else if Z.even q then q * ulp else (q + 1) * ulp.

(** [parseInt(redisData.id)] of [fromRedis], on the decimal numeral of
    the integer [numeral] (of at most 20 digits). *)
Definition parseInt (numeral : Z) : Z := Number_of numeral.

(** [mapping.id = nextID++] of [addMapping]: the id and the new [nextID]. *)
Definition post_increment (n : Z) : Z * Z := (n, Number_of (n + 1)).

(** [if (mapping.id >= nextID) { nextID = mapping.id + 1; }] of [resync]:
    the new [nextID]. *)
Definition raise (mapping_id n : Z) : Z :=
  if decide (n ≤ mapping_id) then Number_of (mapping_id + 1) else n.

(** ** Mappings *)

(** The enumerable fields of a [UserMapping] object that the module reads
    ([redisClient] is the shared client of [config.redis]). *)
Record UserMapping := mkUserMapping {
  id : Z;
  externalUserID : string;
  internalUserID : string;
  meetingId : string
}.

(** The field group stored in redis for a mapping. *)
Record RedisData := mkRedisData {
  data_id : Z;
  data_internalUserID : string;
  data_externalUserID : string;
  data_meetingId : string
}.

#[global] Instance UserMapping_eq_dec : EqDecision UserMapping.
Proof. solve_decision. Defined.

#[global] Instance RedisData_eq_dec : EqDecision RedisData.
Proof. solve_decision. Defined.

Definition toRedis (this : UserMapping) : RedisData :=
  {| data_id := id this;
     data_internalUserID := internalUserID this;
     data_externalUserID := externalUserID this;
     data_meetingId := meetingId this |}.

(** [fromRedis(redisData)], on a hash whose [id] is the numeral of a safe
    integer, which [parseInt] gives back. *)
Definition fromRedis (redisData : RedisData) : UserMapping :=
  {| id := data_id redisData;
     externalUserID := data_externalUserID redisData;
     internalUserID := data_internalUserID redisData;
     meetingId := data_meetingId redisData |}.

(** [print] is [JSON.stringify(this.toRedis())]; the model keeps the object
    that is serialised. *)
Definition print (this : UserMapping) : RedisData := toRedis this.

(** ** The index [db] *)

Definition Index := list (string * UserMapping).

Definition digit (a : ascii) : option N :=
  let n := N_of_ascii a in
  if (48 <=? n)%N && (n <=? 57)%N then Some (n - 48)%N else None.

Fixpoint digits (acc : N) (s : string) : option N :=
  match s with
  | EmptyString => Some acc
  | String a r =>
      match digit a with
      | Some d => digits (10 * acc + d)%N r
      | None => None
      end
  end.

(** A property name is an array index when it is the canonical decimal
    numeral of an integer below 2^32 - 1. *)
Definition array_index (k : string) : option N :=
  match k with
  | EmptyString => None
  | String a r =>
      if decide (a = "0"%char)
      then (if decide (r = EmptyString) then Some 0%N else None)
      else match digits 0 k with
           | Some n => if (n <? 2 ^ 32 - 1)%N then Some n else None
           | None => None
           end
  end.

(** The own property [k] of [db]. *)
Fixpoint db_get (k : string) (d : Index) : option UserMapping :=
  match d with
  | [] => None
  | (k', m) :: r => if decide (k' = k) then Some m else db_get k r
  end.

(** [db[k] = v] when [k] is already a property: the value changes, the
    position does not. *)
Fixpoint db_replace (k : string) (v : UserMapping) (d : Index) : Index :=
  match d with
  | [] => []
  | (k', m) :: r =>
      if decide (k' = k) then (k', v) :: r else (k', m) :: db_replace k v r
  end.

(** A new array index [n] goes after the smaller array indices. *)
Fixpoint db_add_index (n : N) (k : string) (v : UserMapping) (d : Index) : Index :=
  match d with
  | [] => [(k, v)]
  | (k', m) :: r =>
      match array_index k' with
      | Some n' =>
          if (n' <? n)%N then (k', m) :: db_add_index n k v r
          else (k, v) :: d
      | None => (k, v) :: d
      end
  end.

(** [db[k] = v] when [k] is a new property. *)
Definition db_add (k : string) (v : UserMapping) (d : Index) : Index :=
  match array_index k with
  | Some n => db_add_index n k v d
  | None => d ++ [(k, v)]
  end.

(** [db[k] = v], for every name [k] but ["__proto__"]: the names that
    [db] inherits are writable, so the assignment creates the property. *)
Definition db_set (k : string) (v : UserMapping) (d : Index) : Index :=
  match db_get k d with
  | Some _ => db_replace k v d
  | None => db_add k v d
  end.

(** [delete db[k]]: it removes an own property and nothing else. *)
Fixpoint db_delete (k : string) (d : Index) : Index :=
  match d with
  | [] => []
  | (k', m) :: r => if decide (k' = k) then r else (k', m) :: db_delete k r
  end.

(** The names that [db], made by [{}], inherits from [Object.prototype]:
    its methods, and the accessor [__proto__], whose value is
    [Object.prototype] itself. *)
Definition Object_prototype : list string :=
  ["constructor"; "__defineGetter__"; "__defineSetter__"; "hasOwnProperty";
   "__lookupGetter__"; "__lookupSetter__"; "isPrototypeOf"; "propertyIsEnumerable";
   "toString"; "valueOf"; "__proto__"; "toLocaleString"].

(** What the expression [db[k]] evaluates to: the mapping stored under
    [k]; else, for a name of [Object.prototype], the function or object
    inherited, which is truthy and has no field of a mapping; else
    [undefined]. *)
Inductive Property :=
| own (mapping : UserMapping)
| inherited.

Definition db_read (k : string) (d : Index) : option Property :=
  match db_get k d with
  | Some mapping => Some (own mapping)
  | None => if decide (k ∈ Object_prototype) then Some inherited else None
  end.

(** ** The redis store *)

Record Redis := mkRedis {
  userMaps : list Z;              (* the SET of config.redis.keys.userMaps *)
  userMap : gmap Z RedisData      (* the HASH of config.redis.keys.userMap(id) *)
}.

Definition Error := string.

Inductive Command :=
| hmset (key : Z) (data : RedisData)
| sadd (member : Z)
| srem (member : Z)
| del (key : Z)
| smembers
| hgetall (key : Z).

(** The effect of a command that the server has executed. *)
Definition execute (c : Command) (r : Redis) : Redis :=
  match c with
  | hmset key data => {| userMaps := userMaps r; userMap := <[key := data]> (userMap r) |}
  | sadd member =>
      {| userMaps := if decide (member ∈ userMaps r) then userMaps r
                     else userMaps r ++ [member];
         userMap := userMap r |}
  | srem member =>
      {| userMaps := filter (λ x, x ≠ member) (userMaps r); userMap := userMap r |}
  | del key => {| userMaps := userMaps r; userMap := delete key (userMap r) |}
  | smembers => r
  | hgetall _ => r
  end.

(** ** Callbacks, closures and the trace *)

(** A callback argument: [Some f] is the caller's function [f], [None] is
    anything for which [typeof callback === 'function'] is false. *)
Definition Callback := option nat.

Inductive Arguments :=
| no_arguments
| saved (error : option Error) (result : UserMapping)
| destroyed (error : option Error) (result : bool).

Inductive ErrorMessage :=
| error_saving_mapping
| error_saving_mapping_ID
| error_removing_mapping_ID
| error_removing_mapping
| error_getting_list
| error_getting_information.

Inductive InfoMessage :=
| added_user_mapping (internalUserID : string) (printed : RedisData)
| removing_user_mapping (internalUserID : string) (printed : RedisData)
| finished_resync (mappings : list RedisData).

(** What the module does to the outside, in order: log lines, calls of
    the caller's callbacks, calls of a task's [done] by [resync], and
    uncaught [TypeError]s. *)
Inductive Event :=
| Logger_error (message : ErrorMessage) (error : Error)
| Logger_info (message : InfoMessage)
| Invoke (callback : nat) (args : Arguments)
| Done (result : option UserMapping)
| TypeError.

#[global] Instance Arguments_eq_dec : EqDecision Arguments.
Proof. solve_decision. Defined.

#[global] Instance ErrorMessage_eq_dec : EqDecision ErrorMessage.
Proof. solve_decision. Defined.

#[global] Instance InfoMessage_eq_dec : EqDecision InfoMessage.
Proof. solve_decision. Defined.

#[global] Instance Event_eq_dec : EqDecision Event.
Proof. solve_decision. Defined.

(** The functions passed to [save]. *)
Inductive SaveCallback :=
| save_function (f : nat)
    (* a function of the caller *)
| save_added (internalUserID : string) (mapping : UserMapping) (callback : Callback)
    (* the function literal of addMapping *)
| save_resynced (mapping : UserMapping) (tasks : list Z) (callback : Callback).
    (* the function literal of resync, with the tasks that async.series
       still has to run and the callback of resync *)

(** The functions passed to [destroy].  In both removal functions the
    variable [mapping] is declared with [var]: the closures of one scan
    share it, so when they run it holds the entry scanned last. *)
Inductive DestroyCallback :=
| destroy_function (f : nat)
| destroy_removed (internalUserID : string) (mapping : UserMapping) (callback : Callback)
| destroy_removed_meeting (mapping : UserMapping) (callback : Callback).

(** A command sent to redis and not yet answered, with the closure that
    runs on the reply. *)
Inductive Pending :=
| save_hmset (this : UserMapping) (callback : option SaveCallback)
| save_sadd (this : UserMapping) (callback : option SaveCallback)
| destroy_srem (this : UserMapping) (callback : option DestroyCallback)
| destroy_del (this : UserMapping) (callback : option DestroyCallback)
| resync_smembers (callback : Callback)
| resync_hgetall (key : Z) (tasks : list Z) (callback : Callback).

Definition command (p : Pending) : Command :=
  match p with
  | save_hmset this _ => hmset (id this) (toRedis this)
  | save_sadd this _ => sadd (id this)
  | destroy_srem this _ => srem (id this)
  | destroy_del this _ => del (id this)
  | resync_smembers _ => smembers
  | resync_hgetall key _ _ => hgetall key
  end.

(** ** The state of the process and of the store *)

Record State := mkState {
  db : Index;
  nextID : Z;
  redis : Redis;
  pending : list Pending;
  trace : list Event
}.

(** The module as loaded: [const db = {}; let nextID = 1;]. *)
Definition startup (store : Redis) : State :=
  {| db := []; nextID := 1; redis := store; pending := []; trace := [] |}.

Definition set_db (d : Index) (s : State) : State :=
  {| db := d; nextID := nextID s; redis := redis s;
     pending := pending s; trace := trace s |}.

Definition set_nextID (n : Z) (s : State) : State :=
  {| db := db s; nextID := n; redis := redis s;
     pending := pending s; trace := trace s |}.

Definition set_redis (r : Redis) (s : State) : State :=
  {| db := db s; nextID := nextID s; redis := r;
     pending := pending s; trace := trace s |}.

Definition set_pending (q : list Pending) (s : State) : State :=
  {| db := db s; nextID := nextID s; redis := redis s;
     pending := q; trace := trace s |}.

(** Send a command: it waits behind those already sent. *)
Definition send (p : Pending) (s : State) : State :=
  set_pending (pending s ++ [p]) s.

Definition emit (e : Event) (s : State) : State :=
  {| db := db s; nextID := nextID s; redis := redis s;
     pending := pending s; trace := trace s ++ [e] |}.

(** [if (error != null) { Logger.error(message, error) }] *)
Definition log_error (message : ErrorMessage) (error : option Error) (s : State) : State :=
  match error with
  | Some e => emit (Logger_error message e) s
  | None => s
  end.

(** [(typeof callback === 'function' ? callback(args) : undefined)] *)
Definition guarded (callback : Callback) (args : Arguments) (s : State) : State :=
  match callback with
  | Some f => emit (Invoke f args) s
  | None => s
  end.

(** The server executes the command unless it answers with an error. *)
Definition served (c : Command) (error : option Error) (s : State) : State :=
  match error with
  | Some _ => s
  | None => set_redis (execute c (redis s)) s
  end.

(** ** The operations of the class *)

(** [save(callback)]: sends HMSET; the rest runs on the replies. *)
Definition save (this : UserMapping) (callback : option SaveCallback) (s : State) : State :=
  send (save_hmset this callback) s.

(** [destroy(callback)]: sends SREM; the rest runs on the replies. *)
Definition destroy (this : UserMapping) (callback : option DestroyCallback) (s : State) : State :=
  send (destroy_srem this callback) s.

(** [static addMapping(internalUserID, externalUserID, meetingId, callback)];
    [nextID++] is exact below 2^53. *)
Definition addMapping (internalUserID externalUserID meetingId : string)
    (callback : Callback) (s : State) : State :=
  let mapping :=
    {| id := nextID s;
       internalUserID := internalUserID;
       externalUserID := externalUserID;
       meetingId := meetingId |} in
  let s := set_nextID (nextID s + 1) s in
  save mapping (Some (save_added internalUserID mapping callback)) s.

(** The value of [var mapping] once a scan of [d] is over: the entry
    enumerated last.  The closures of the scan exist only if the loop body
    ran, and [this] is then one of the entries. *)
Definition scanned_last (d : Index) (this : UserMapping) : UserMapping :=
  default this (last d.*2).

(** The loop of the two removal functions, [for (let internal in db)],
    over the entries [d] still to be enumerated: on a match,
    [result.push(mapping.destroy(...))], where [destroy] returns nothing;
    otherwise [result.push(undefined)].  The loop enumerates the own
    properties of [db]: [Object.prototype] has no enumerable property. *)
Fixpoint scan (matches : UserMapping → Prop) `{!∀ m, Decision (matches m)}
    (closure : UserMapping → DestroyCallback) (d : Index)
    (result : list Value) (s : State) : list Value * State :=
  match d with
  | [] => (result, s)
  | (_, mapping) :: r =>
      if decide (matches mapping)
      then scan matches closure r (result ++ [undefined])
             (destroy mapping (Some (closure mapping)) s)
      else scan matches closure r (result ++ [undefined]) s
  end.

(** [static removeMapping(internalUserID, callback)]; it returns [result]. *)
Definition removeMapping (internalUserID0 : string) (callback : Callback)
    (s : State) : Value * State :=
  let d := db s in
  let '(result, s) :=
    scan (λ mapping, internalUserID mapping = internalUserID0)
         (λ this, destroy_removed internalUserID0 (scanned_last d this) callback)
         d [] s in
  (array result, s).

(** [static removeMappingMeetingId(meetingId, callback)]: after the loop,
    [callback()] without a test of its type. *)
Definition removeMappingMeetingId (meetingId0 : string) (callback : Callback)
    (s : State) : Completion * State :=
  let d := db s in
  let '(_, s) :=
    scan (λ mapping, meetingId mapping = meetingId0)
         (λ this, destroy_removed_meeting (scanned_last d this) callback)
         d [] s in
  match callback with
  | Some f => (returns undefined, emit (Invoke f no_arguments) s)
  | None => (throws, s)
  end.

(** [static getExternalUserID(internalUserID)]; [None] is [undefined],
    which is also the [externalUserID] of what [db] inherits. *)
Definition getExternalUserID (internalUserID0 : string) (s : State) : option string :=
  match db_read internalUserID0 (db s) with
  | Some (own mapping) => Some (externalUserID mapping)
  | Some inherited => None
  | None => None
  end.

(** [static allSync()] *)
Definition allSync (s : State) : list UserMapping := (db s).*2.

(** [static resync(callback)]: sends SMEMBERS. *)
Definition resync (callback : Callback) (s : State) : State :=
  send (resync_smembers callback) s.

(** [static initialize(callback)] *)
Definition initialize (callback : Callback) (s : State) : State :=
  resync callback s.

(** [async.series(tasks, final)] at the point where it starts the next
    task: the task sends HGETALL for its id; with no task left, the final
    function of [resync] logs the index and calls back. *)
Definition series (tasks : list Z) (callback : Callback) (s : State) : State :=
  match tasks with
  | key :: tasks => send (resync_hgetall key tasks callback) s
  | [] =>
      let s := emit (Logger_info (finished_resync (print <$> allSync s))) s in
      guarded callback no_arguments s
  end.

(** ** The closures *)

(** The function given to [save], called with [(error, db[this.internalUserID])];
    the second argument is the object stored just before.  In the function
    of [resync], [mapping.id + 1] is exact below 2^53. *)
Definition save_callback (callback : option SaveCallback) (error : option Error)
    (result : UserMapping) (s : State) : State :=
  match callback with
  | None => s
  | Some (save_function f) => emit (Invoke f (saved error result)) s
  | Some (save_added internalUserID0 mapping callback) =>
      let s := emit (Logger_info (added_user_mapping internalUserID0 (print mapping))) s in
      guarded callback (saved error result) s
  | Some (save_resynced mapping tasks callback) =>
      let s := if decide (nextID s ≤ id mapping)
               then set_nextID (id mapping + 1) s else s in
      let s := emit (Done (Some mapping)) s in
      series tasks callback s
  end.

(** The function given to [destroy], called with [(error, result)]. *)
Definition destroy_callback (callback : option DestroyCallback) (error : option Error)
    (result : bool) (s : State) : State :=
  match callback with
  | None => s
  | Some (destroy_function f) => emit (Invoke f (destroyed error result)) s
  | Some (destroy_removed internalUserID0 mapping callback) =>
      let s := emit (Logger_info (removing_user_mapping internalUserID0 (print mapping))) s in
      guarded callback (destroyed error result) s
  | Some (destroy_removed_meeting mapping callback) =>
      let s := emit (Logger_info
                       (removing_user_mapping (internalUserID mapping) (print mapping))) s in
      guarded callback (destroyed error result) s
  end.

(** The closure of a command, run on its reply [(error, reply)]. *)
Definition on_reply (p : Pending) (error : option Error) (s : State) : State :=
  match p with
  | save_hmset this callback =>
      let s := served (command p) error s in
      let s := log_error error_saving_mapping error s in
      send (save_sadd this callback) s
  | save_sadd this callback =>
      let s := served (command p) error s in
      let s := log_error error_saving_mapping_ID error s in
      let s := set_db (db_set (internalUserID this) this (db s)) s in
      save_callback callback error this s
  | destroy_srem this callback =>
      let s := served (command p) error s in
      let s := log_error error_removing_mapping_ID error s in
      send (destroy_del this callback) s
  | destroy_del this callback =>
      let s := served (command p) error s in
      let s := log_error error_removing_mapping error s in
      match db_read (internalUserID this) (db s) with
      | Some _ =>
          let s := set_db (db_delete (internalUserID this) (db s)) s in
          destroy_callback callback error true s
      | None => destroy_callback callback error false s
      end
  | resync_smembers callback =>
      let s := log_error error_getting_list error s in
      match error with
      | Some _ => emit TypeError s        (* [mappings] is undefined: no forEach *)
      | None => series (userMaps (redis s)) callback s
      end
  | resync_hgetall key tasks callback =>
      let s := log_error error_getting_information error s in
      let mappingData :=
        match error with
        | Some _ => None
        | None => userMap (redis s) !! key
        end in
      match mappingData with
      | Some mappingData =>
          let mapping := fromRedis mappingData in
          save mapping (Some (save_resynced mapping tasks callback)) s
      | None =>
          let s := emit (Done None) s in
          series tasks callback s
      end
  end.

(** ** The event loop *)

(** Redis answers the oldest pending command. *)
Definition reply (error : option Error) (s : State) : State :=
  match pending s with
  | [] => s
  | p :: q => on_reply p error (set_pending q s)
  end.

Inductive Operation :=
| call_addMapping (internalUserID externalUserID meetingId : string) (callback : Callback)
| call_removeMapping (internalUserID : string) (callback : Callback)
| call_removeMappingMeetingId (meetingId : string) (callback : Callback)
| call_resync (callback : Callback)
| call_initialize (callback : Callback)
| call_save (this : UserMapping) (callback : Callback)
| call_destroy (this : UserMapping) (callback : Callback).

Definition call (o : Operation) (s : State) : State :=
  match o with
  | call_addMapping i e m callback => addMapping i e m callback s
  | call_removeMapping i callback => (removeMapping i callback s).2
  | call_removeMappingMeetingId m callback =>
      match removeMappingMeetingId m callback s with
      | (returns _, s) => s
      | (throws, s) => emit TypeError s
      end
  | call_resync callback => resync callback s
  | call_initialize callback => initialize callback s
  | call_save this callback => save this (save_function <$> callback) s
  | call_destroy this callback => destroy this (destroy_function <$> callback) s
  end.

(** What happens next in the process: the relay calls an operation, or
    a reply arrives. *)
Inductive Action :=
| Call (o : Operation)
| Reply (error : option Error).

Definition step (s : State) (a : Action) : State :=
  match a with
  | Call o => call o s
  | Reply error => reply error s
  end.

Definition run (actions : list Action) (s : State) : State :=
  foldl step s actions.

(** ** Notions used in the statements *)

(** No two entries of the index have the same name, and every entry is
    stored under its own [internalUserID]. *)
Definition index_ok (d : Index) : Prop :=
  NoDup d.*1 ∧ ∀ k m, (k, m) ∈ d → internalUserID m = k.

(** A schedule in which the relay only calls [addMapping]. *)
Definition adds_only (actions : list Action) : Prop :=
  Forall (λ a, match a with
               | Call (call_addMapping _ _ _ _) | Reply _ => True
               | Call _ => False
               end) actions.

(** The [externalUserID] of the last call [addMapping(u, ...)] of a
    schedule, [before] if there is none. *)
Fixpoint latest (u : string) (actions : list Action) (before : option string)
    : option string :=
  match actions with
  | [] => before
  | Call (call_addMapping i e _ _) :: actions =>
      latest u actions (if decide (i = u) then Some e else before)
  | _ :: actions => latest u actions before
  end.

(** The mappings that the pending [save]s will store, in the order in
    which they will be stored: those waiting for the reply to SADD, then
    those still waiting for the reply to HMSET. *)
Definition in_flight (q : list Pending) : list UserMapping :=
  omap (λ p, match p with save_sadd this _ => Some this | _ => None end) q ++
  omap (λ p, match p with save_hmset this _ => Some this | _ => None end) q.

(** The index once the mappings [ms] have been stored, in order. *)
Definition settle (d : Index) (ms : list UserMapping) : Index :=
  foldl (λ d m, db_set (internalUserID m) m d) d ms.

(** Only [save]s started by [addMapping] are pending. *)
Definition adds_pending (q : list Pending) : Prop :=
  Forall (λ p, match p with
               | save_hmset _ (Some (save_added _ _ _))
               | save_sadd _ (Some (save_added _ _ _)) => True
               | _ => False
               end) q.

(** The commands sent by a scan of [d]: SREM for the entries that match. *)
Definition destroys (matches : UserMapping → Prop) `{!∀ m, Decision (matches m)}
    (closure : UserMapping → DestroyCallback) (d : Index) : list Pending :=
  (λ m, destroy_srem m (Some (closure m))) <$> filter matches d.*2.

(** No [resync] is in progress. *)
Definition no_resync (q : list Pending) : Prop :=
  Forall (λ p, match p with
               | save_hmset _ (Some (save_resynced _ _ _))
               | save_sadd _ (Some (save_resynced _ _ _))
               | resync_smembers _
               | resync_hgetall _ _ _ => False
               | _ => True
               end) q.

(** The replies that the pending [save]s and [destroy]s still need. *)
Fixpoint replies_needed (q : list Pending) : nat :=
  match q with
  | [] => 0
  | (save_hmset _ _ | destroy_srem _ _) :: q => 2 + replies_needed q
  | _ :: q => 1 + replies_needed q
  end.

(** The index entries that [removeMapping(i)] matches, and those that
    [removeMappingMeetingId(m)] matches. *)
Definition matching_user (i : string) (s : State) : list UserMapping :=
  filter (λ mapping, internalUserID mapping = i) (allSync s).

Definition matching_meeting (m : string) (s : State) : list UserMapping :=
  filter (λ mapping, meetingId mapping = m) (allSync s).

(** How many times a trace calls the caller's function [f]. *)
Definition is_invoke (f : nat) (e : Event) : bool :=
  match e with
  | Invoke g _ => bool_decide (g = f)
  | _ => false
  end.

Definition invocations (f : nat) (t : list Event) : nat :=
  length (filter (λ e, is_invoke f e) t).

(** How many [TypeError]s a trace has. *)
Definition faults (t : list Event) : nat :=
  length (filter (λ e, e = TypeError) t).

(** The pending commands whose closure ends by calling [f]. *)
Definition calls_back (f : nat) (p : Pending) : bool :=
  match p with
  | save_hmset _ (Some c) | save_sadd _ (Some c) =>
      match c with
      | save_function g | save_added _ _ (Some g) => bool_decide (g = f)
      | _ => false
      end
  | destroy_srem _ (Some c) | destroy_del _ (Some c) =>
      match c with
      | destroy_function g
      | destroy_removed _ _ (Some g)
      | destroy_removed_meeting _ (Some g) => bool_decide (g = f)
      | _ => false
      end
  | _ => false
  end.

Definition owed (f : nat) (q : list Pending) : nat :=
  length (filter (λ p, calls_back f p) q).

(** The log line of [if (error != null) { Logger.error(message, error) }]. *)
Definition error_line (message : ErrorMessage) (error : option Error) : list Event :=
  match error with
  | Some e => [Logger_error message e]
  | None => []
  end.


(** The results that the tasks of [resync] have passed to [done], in
    order: the array that [async.series] collects. *)
Definition dones (t : list Event) : list (option UserMapping) :=
  omap (λ e, match e with Done result => Some result | _ => None end) t.

(** The field groups that the store holds for the ids [keys], in order. *)
Definition read (store : Redis) (keys : list Z) : list RedisData :=
  omap (λ key, userMap store !! key) keys.

(** The field groups of the ids that the set lists. *)
Definition records (store : Redis) : list RedisData :=
  read store (userMaps store).

(** Every id that the set lists has a hash, and the hash holds that [id]:
    the store holds a valid record for each listed id. *)
Definition records_valid (store : Redis) : Prop :=
  Forall (λ key, data_id <$> userMap store !! key = Some key) (userMaps store).

(** Every hash of the store is stored under the [id] it holds, as are
    the hashes that [save] writes. *)
Definition hashes_own_id (store : Redis) : Prop :=
  map_Forall (λ key data, data_id data = key) (userMap store).

(** Every hash that the set lists is stored under the [id] it holds. *)
Definition hashes_match (store : Redis) : Prop :=
  ∀ key data, key ∈ userMaps store → userMap store !! key = Some data →
              data_id data = key.

(** The answers to one task of [resync] when the read succeeds: one to
    HGETALL and, if the hash exists, [writes key] to HMSET and SADD. *)
Definition task_replies (store : Redis) (writes : Z → option Error * option Error)
    (key : Z) : list (option Error) :=
  match userMap store !! key with
  | Some _ => [None; (writes key).1; (writes key).2]
  | None => [None]
  end.

(** The answers to a whole [resync] when SMEMBERS and every HGETALL
    succeed; [writes] gives the answers to the writes. *)
Definition resync_replies (store : Redis) (writes : Z → option Error * option Error)
    : list (option Error) :=
  None :: flat_map (task_replies store writes) (userMaps store).

(** [nextID] after the tasks of [resync] have saved the mappings [ms]. *)
Definition raised (n : Z) (ms : list UserMapping) : Z :=
  foldl (λ n m, Z.max n (id m + 1)) n ms.



(** The command that [async.series] sends when it starts its next task. *)
Definition next_task (tasks : list Z) (callback : Callback) : list Pending :=
  match tasks with
  | key :: tasks => [resync_hgetall key tasks callback]
  | [] => []
  end.

(** The commands that the closure of [p] sends, in state [s]. *)
Definition sent (p : Pending) (error : option Error) (s : State) : list Pending :=
  match p with
  | save_hmset this callback => [save_sadd this callback]
  | save_sadd _ (Some (save_resynced _ tasks callback)) => next_task tasks callback
  | destroy_srem this callback => [destroy_del this callback]
  | resync_smembers callback =>
      match error with
      | Some _ => []
      | None => next_task (userMaps (redis s)) callback
      end
  | resync_hgetall key tasks callback =>
      match error, userMap (redis s) !! key with
      | None, Some data =>
          [save_hmset (fromRedis data)
             (Some (save_resynced (fromRedis data) tasks callback))]
      | _, _ => next_task tasks callback
      end
  | _ => []
  end.





(** ** The range of the model *)

(** No mapping is stored under ["__proto__"]: no hash of the store at the
    start names it, and neither does the relay. *)
Definition names_plainly (a : Action) : Prop :=
  match a with
  | Call (call_addMapping i _ _ _) => i ≠ "__proto__"
  | Call (call_save this _) => internalUserID this ≠ "__proto__"
  | _ => True
  end.

Definition plain_names (store : Redis) (actions : list Action) : Prop :=
  map_Forall (λ _ data, data_internalUserID data ≠ "__proto__") (userMap store)
  ∧ Forall names_plainly actions.

(** Every Number is the integer of the model: the ids of the hashes of
    the store at the start and of the mappings that the relay saves are
    safe integers, and [nextID], which never decreases, has not passed
    2^53. *)
Definition saves_safely (a : Action) : Prop :=
  match a with
  | Call (call_save this _) => safe (id this)
  | _ => True
  end.

Definition safe_ids (store : Redis) (actions : list Action) : Prop :=
  map_Forall (λ _ data, safe (data_id data)) (userMap store)
  ∧ Forall saves_safely actions
  ∧ nextID (run actions (startup store)) ≤ 9007199254740992.

(** A process that the model describes as the code behaves, and the
    states of such processes. *)
Definition faithful (store : Redis) (actions : list Action) : Prop :=
  plain_names store actions ∧ safe_ids store actions.

Definition within_model (s : State) : Prop :=
  ∃ store actions, faithful store actions ∧ s = run actions (startup store).

(** What the pending [save]s will store is not named ["__proto__"]. *)
Definition saves_plainly (p : Pending) : Prop :=
  match p with
  | save_hmset this _ | save_sadd this _ => internalUserID this ≠ "__proto__"
  | _ => True
  end.

(** No hash, no pending [save] and no entry of the index is for the name
    ["__proto__"]. *)
Definition no_proto (s : State) : Prop :=
  map_Forall (λ _ data, data_internalUserID data ≠ "__proto__") (userMap (redis s))
  ∧ Forall saves_plainly (pending s)
  ∧ "__proto__" ∉ (db s).*1.

#[global] Instance safe_dec z : Decision (safe z).
Proof. unfold safe. apply _. Defined.

#[global] Instance names_plainly_dec a : Decision (names_plainly a).
Proof. destruct a as [[]|]; apply _. Defined.

#[global] Instance saves_safely_dec a : Decision (saves_safely a).
Proof. destruct a as [[]|]; apply _. Defined.

#[global] Instance plain_names_dec store actions : Decision (plain_names store actions).
Proof. unfold plain_names. apply _. Defined.

#[global] Instance safe_ids_dec store actions : Decision (safe_ids store actions).
Proof. unfold safe_ids. apply _. Defined.

#[global] Instance faithful_dec store actions : Decision (faithful store actions).
Proof. unfold faithful. apply _. Defined.

(** ** Sample stores and schedules *)

Definition empty_store : Redis := {| userMaps := []; userMap := ∅ |}.

(** ["u1"] added twice and acknowledged: the second mapping replaces the
    first in the index. *)
Definition same_user_twice : State :=
  run [Call (call_addMapping "u1" "e1" "m1" None); Reply None; Reply None;
       Call (call_addMapping "u1" "e2" "m1" None); Reply None; Reply None]
      (startup empty_store).

Definition no_write_errors : Z → option Error * option Error :=
  λ _, (None, None).

(** Two users of meeting ["m1"], added and acknowledged. *)
Definition two_users : State :=
  run [Call (call_addMapping "u1" "e1" "m1" None);
       Call (call_addMapping "u2" "e2" "m1" None);
       Reply None; Reply None; Reply None; Reply None]
      (startup empty_store).

(** Three calls of [addMapping], two of them for ["u1"], with replies in
    between and one failed write. *)
Definition three_adds : list Action :=
  [Call (call_addMapping "u1" "e1" "m1" (Some 1%nat));
   Call (call_addMapping "u2" "e2" "m1" None);
   Reply None;
   Call (call_addMapping "u1" "e3" "m2" (Some 2%nat));
   Reply (Some "ECONNRESET")].

Definition three_adds_rest : list (option Error) :=
  [None; None; Some "ETIMEDOUT"; None].

(** A new process on the store that [two_users] left runs [resync]. *)
Definition restart_two_users : list Action :=
  Call (call_resync (Some 5%nat))
  :: (Reply <$> resync_replies (redis two_users) no_write_errors).

Definition two_users_restarted : State :=
  run restart_two_users (startup (redis two_users)).


(** [addMapping] for a third user, both writes answered with an error. *)
Definition failed_add : list Action :=
  [Call (call_addMapping "u3" "e3" "m1" (Some 4%nat));
   Reply (Some "ETIMEDOUT"); Reply (Some "ECONNRESET")].


(** The mappings whose index entry the pending [destroy]s will delete, in
    the order of the deletions: those waiting for the reply to DEL, then
    those still waiting for the reply to SREM. *)
Definition to_delete (q : list Pending) : list UserMapping :=
  omap (λ p, match p with destroy_del this _ => Some this | _ => None end) q ++
  omap (λ p, match p with destroy_srem this _ => Some this | _ => None end) q.

(** The mappings whose id the pending [destroy]s will still remove from
    the set. *)
Definition to_unlist (q : list Pending) : list UserMapping :=
  omap (λ p, match p with destroy_srem this _ => Some this | _ => None end) q.

(** The index once the entries under the [internalUserID]s of [ms] have
    been deleted. *)
Definition wipe (d : Index) (ms : list UserMapping) : Index :=
  foldl (λ d m, db_delete (internalUserID m) d) d ms.

(** The set and the hashes once the records of [ms] have been removed. *)
Definition unlist (members : list Z) (ms : list UserMapping) : list Z :=
  foldl (λ l m, filter (λ x, x ≠ id m) l) members ms.

Definition unhash (hashes : gmap Z RedisData) (ms : list UserMapping) : gmap Z RedisData :=
  foldl (λ h m, delete (id m) h) hashes ms.

(** Only [destroy]s are pending. *)
Definition destroys_pending (q : list Pending) : Prop :=
  Forall (λ p, match p with
               | destroy_srem _ _ | destroy_del _ _ => True
               | _ => False
               end) q.

(** What the closure of HGETALL gets as [mappingData] for the id [key]:
    nothing when the read fails ([reads key] is its error), else the hash
    of the store, if any. *)
Definition fetched (store : Redis) (reads : Z → option Error) (key : Z)
    : option RedisData :=
  match reads key with
  | Some _ => None
  | None => userMap store !! key
  end.

(** The answers to one task of [resync]: the answer to HGETALL and, when
    the task got a hash, [writes key] to HMSET and SADD. *)
Definition task_answers (store : Redis) (reads : Z → option Error)
    (writes : Z → option Error * option Error) (key : Z) : list (option Error) :=
  match fetched store reads key with
  | Some _ => [None; (writes key).1; (writes key).2]
  | None => [reads key]
  end.

(** The answers to a whole [resync] when SMEMBERS succeeds. *)
Definition resync_answers (store : Redis) (reads : Z → option Error)
    (writes : Z → option Error * option Error) : list (option Error) :=
  None :: flat_map (task_answers store reads writes) (userMaps store).

(** The message with which the closure of a command logs an error. *)
Definition error_message (p : Pending) : ErrorMessage :=
  match p with
  | save_hmset _ _ => error_saving_mapping
  | save_sadd _ _ => error_saving_mapping_ID
  | destroy_srem _ _ => error_removing_mapping_ID
  | destroy_del _ _ => error_removing_mapping
  | resync_smembers _ => error_getting_list
  | resync_hgetall _ _ _ => error_getting_information
  end.

Definition is_error (e : Event) : bool :=
  match e with
  | Logger_error _ _ => true
  | _ => false
  end.

(** The lines of [Logger.error] in a trace. *)
Definition errors_logged (t : list Event) : list Event :=
  filter (λ e, is_error e) t.

(** The error replies of a schedule that reach a command, each as the
    line of the command's closure. *)
Fixpoint failures (actions : list Action) (s : State) : list Event :=
  match actions with
  | [] => []
  | a :: actions =>
      match a, pending s with
      | Reply (Some e), p :: _ => [Logger_error (error_message p) e]
      | _, _ => []
      end ++ failures actions (step s a)
  end.

(** Reads that fail for the id 1 only. *)
Definition first_read_fails : Z → option Error :=
  λ key, if decide (key = 1) then Some "ETIMEDOUT" else None.

(** * Properties *)

(** ** The index as a map *)

Lemma db_get_app k (l1 l2 : Index) :
  db_get k (l1 ++ l2) =
  match db_get k l1 with Some m => Some m | None => db_get k l2 end.
Proof.
  induction l1 as [|[k' m] l1 IH]; simpl; [done|].
  case_decide; done.
Qed.

Lemma db_get_None k (d : Index) : db_get k d = None ↔ k ∉ d.*1.
Proof.
  induction d as [|[k' m] d IH]; simpl.
  - split; [intros _; apply not_elem_of_nil | done].
  - rewrite not_elem_of_cons. case_decide; subst.
    + split; [done | intros [? _]; done].
    + rewrite IH. split; [by intros ?; split | by intros [_ ?]].
Qed.

Lemma db_read_own k m (d : Index) : db_get k d = Some m → db_read k d = Some (own m).
Proof. unfold db_read. by intros ->. Qed.

Lemma db_read_None k (d : Index) : db_read k d = None → db_get k d = None.
Proof. unfold db_read. by destruct (db_get k d). Qed.

Lemma db_read_absent k (d : Index) :
  db_get k d = None →
  db_read k d = if decide (k ∈ Object_prototype) then Some inherited else None.
Proof. unfold db_read. by intros ->. Qed.

Lemma db_get_Some_elem k m (d : Index) : db_get k d = Some m → (k, m) ∈ d.
Proof.
  induction d as [|[k' m'] d IH]; simpl; [done|].
  case_decide; intros; simplify_eq; [left | right; auto].
Qed.

Lemma db_get_elem k m (d : Index) : NoDup d.*1 → (k, m) ∈ d → db_get k d = Some m.
Proof.
  induction d as [|[k' m'] d IH]; simpl; intros Hnd Hin.
  - by apply elem_of_nil in Hin.
  - apply NoDup_cons in Hnd as [Hk Hnd].
    apply elem_of_cons in Hin as [Heq|Hin]; simplify_eq.
    + by rewrite decide_True.
    + rewrite decide_False; [by apply IH|].
      intros ->. apply Hk. by apply (list_elem_of_fmap_2 fst) in Hin.
Qed.

Lemma db_add_split k v (d : Index) :
  ∃ l1 l2, d = l1 ++ l2 ∧ db_add k v d = l1 ++ (k, v) :: l2.
Proof.
  unfold db_add. destruct (array_index k) as [n|].
  - induction d as [|[k' m] d (l1 & l2 & Hd & Hadd)]; simpl.
    + by exists [], [].
    + destruct (array_index k') as [n'|]; [destruct (n' <? n)%N|].
      * exists ((k', m) :: l1), l2. simpl. by rewrite Hadd, <- Hd.
      * by exists [], ((k', m) :: d).
      * by exists [], ((k', m) :: d).
  - exists d, []. by rewrite app_nil_r.
Qed.

Lemma db_get_replace k v k' (d : Index) :
  db_get k' (db_replace k v d) =
  match db_get k d with
  | Some _ => if decide (k = k') then Some v else db_get k' d
  | None => db_get k' d
  end.
Proof.
  induction d as [|[k0 m] d IH]; simpl; [done|].
  destruct (decide (k0 = k)) as [->|Hne]; simpl.
  - destruct (decide (k = k')); done.
  - rewrite IH. destruct (decide (k0 = k')) as [->|]; [|done].
    destruct (db_get k d); [|done]. by rewrite decide_False.
Qed.

(** Reading [db[k']] after [db[k] = v]. *)
Lemma db_get_set k v k' (d : Index) :
  db_get k' (db_set k v d) = if decide (k = k') then Some v else db_get k' d.
Proof.
  unfold db_set. destruct (db_get k d) as [m|] eqn:Hk.
  - by rewrite db_get_replace, Hk.
  - destruct (db_add_split k v d) as (l1 & l2 & Hd & ->).
    subst d. rewrite db_get_app in Hk. rewrite !db_get_app. simpl.
    destruct (decide (k = k')) as [<-|Hne]; [|done].
    by destruct (db_get k l1).
Qed.

Lemma db_replace_keys k v (d : Index) : (db_replace k v d).*1 = d.*1.
Proof.
  induction d as [|[k' m] d IH]; simpl; [done|].
  case_decide; simpl; [done|]. f_equal. exact IH.
Qed.

Lemma db_replace_elem k v k' m' (d : Index) :
  (k', m') ∈ db_replace k v d → (k', m') = (k, v) ∨ (k', m') ∈ d.
Proof.
  induction d as [|[k0 m] d IH]; simpl; [by right|].
  case_decide; subst; rewrite !elem_of_cons; naive_solver.
Qed.

Lemma db_delete_elem k k' m' (d : Index) : (k', m') ∈ db_delete k d → (k', m') ∈ d.
Proof.
  induction d as [|[k0 m] d IH]; simpl; [done|].
  case_decide; rewrite !elem_of_cons; naive_solver.
Qed.

Lemma db_delete_keys k (d : Index) : (db_delete k d).*1 `sublist_of` d.*1.
Proof.
  induction d as [|[k0 m] d IH]; simpl; [done|].
  case_decide; simpl; [by apply sublist_cons | by apply sublist_skip].
Qed.

Lemma db_get_delete k k' (d : Index) :
  NoDup d.*1 →
  db_get k' (db_delete k d) = if decide (k = k') then None else db_get k' d.
Proof.
  induction d as [|[k0 m] d IH]; simpl; intros Hnd.
  - by case_decide.
  - apply NoDup_cons in Hnd as [Hk0 Hnd].
    destruct (decide (k0 = k)) as [->|Hne]; simpl.
    + destruct (decide (k = k')) as [<-|]; [|done]. by apply db_get_None.
    + rewrite IH by done. destruct (decide (k0 = k')) as [->|]; [|done].
      by rewrite (decide_False _ _ (not_eq_sym Hne)).
Qed.

Lemma db_set_length k v (d : Index) :
  length (db_set k v d) =
  match db_get k d with Some _ => length d | None => S (length d) end.
Proof.
  unfold db_set. destruct (db_get k d) eqn:Hk.
  - rewrite <- (length_fmap fst), db_replace_keys. apply length_fmap.
  - destruct (db_add_split k v d) as (l1 & l2 & -> & ->).
    rewrite !length_app. simpl. lia.
Qed.

(** ** The invariant of the index (C7) *)

Lemma index_ok_nil : index_ok [].
Proof. split; [constructor | intros k m H; by apply elem_of_nil in H]. Qed.

Lemma index_ok_set this (d : Index) :
  index_ok d → index_ok (db_set (internalUserID this) this d).
Proof.
  intros [Hnd Hkey]. unfold db_set.
  destruct (db_get (internalUserID this) d) eqn:Hk.
  - split; [by rewrite db_replace_keys|].
    intros k m [Heq|Hin]%db_replace_elem; [by simplify_eq | auto].
  - destruct (db_add_split (internalUserID this) this d) as (l1 & l2 & -> & ->).
    apply db_get_None in Hk. split.
    + rewrite fmap_app, fmap_cons. simpl.
      rewrite fmap_app in Hnd, Hk.
      apply NoDup_app in Hnd as (H1 & H12 & H2).
      apply NoDup_app. split_and!; [done| |].
      * intros x Hx. rewrite not_elem_of_cons. split; [|by apply H12].
        intros ->. apply Hk, elem_of_app. by left.
      * apply NoDup_cons. split; [|done].
        intros Hx. apply Hk, elem_of_app. by right.
    + intros k m Hin. apply elem_of_app in Hin as [Hin|Hin].
      * apply Hkey, elem_of_app. by left.
      * apply elem_of_cons in Hin as [Heq|Hin]; [by simplify_eq|].
        apply Hkey, elem_of_app. by right.
Qed.

Lemma index_ok_delete k (d : Index) : index_ok d → index_ok (db_delete k d).
Proof.
  intros [Hnd Hkey]. split.
  - eapply sublist_NoDup; [done | apply db_delete_keys].
  - intros k' m Hin. apply db_delete_elem in Hin. by apply Hkey.
Qed.

(** *** What each piece of the code does to [db] and [nextID] *)

(** The scan as a whole: one [undefined] per entry, and one SREM sent per
    entry that matches, in the order of the enumeration. *)
Lemma scan_spec (matches : UserMapping → Prop) `{!∀ m, Decision (matches m)}
    closure (d : Index) result s :
  scan matches closure d result s =
  (result ++ replicate (length d) undefined,
   set_pending (pending s ++ destroys matches closure d) s).
Proof.
  revert result s. induction d as [|[k m] d IH]; intros result s; simpl.
  - unfold destroys. simpl. rewrite !app_nil_r. by destruct s.
  - unfold destroys in *. simpl. rewrite filter_cons.
    destruct (decide (matches m)); rewrite IH, <- app_assoc; simpl; [|done].
    by rewrite <- app_assoc.
Qed.

Lemma series_db tasks callback s : db (series tasks callback s) = db s.
Proof. destruct tasks, callback; done. Qed.

Lemma series_nextID tasks callback s : nextID (series tasks callback s) = nextID s.
Proof. destruct tasks, callback; done. Qed.

Lemma series_redis tasks callback s : redis (series tasks callback s) = redis s.
Proof. destruct tasks, callback; done. Qed.

Lemma save_callback_db callback error result s :
  db (save_callback callback error result s) = db s.
Proof.
  destruct callback as [[f|i m [f|]|m tasks cb]|]; simpl; try done.
  rewrite series_db. simpl. by case_decide.
Qed.

Lemma save_callback_redis callback error result s :
  redis (save_callback callback error result s) = redis s.
Proof.
  destruct callback as [[f|i m [f|]|m tasks cb]|]; simpl; try done.
  rewrite series_redis. simpl. by case_decide.
Qed.

Lemma destroy_callback_frame callback error result s :
  db (destroy_callback callback error result s) = db s
  ∧ nextID (destroy_callback callback error result s) = nextID s
  ∧ redis (destroy_callback callback error result s) = redis s
  ∧ pending (destroy_callback callback error result s) = pending s.
Proof. by destruct callback as [[f|i m [f|]|m [f|]]|]. Qed.

Lemma log_error_frame message error s :
  db (log_error message error s) = db s
  ∧ nextID (log_error message error s) = nextID s
  ∧ redis (log_error message error s) = redis s
  ∧ pending (log_error message error s) = pending s.
Proof. by destruct error. Qed.

Lemma served_frame c error s :
  db (served c error s) = db s
  ∧ nextID (served c error s) = nextID s
  ∧ pending (served c error s) = pending s
  ∧ trace (served c error s) = trace s.
Proof. by destruct error. Qed.

(** A reply leaves the index alone, or stores a mapping under its own
    [internalUserID], or deletes a property. *)
Lemma on_reply_db p error s :
  db (on_reply p error s) = db s
  ∨ (∃ this, db (on_reply p error s) = db_set (internalUserID this) this (db s))
  ∨ (∃ k, db (on_reply p error s) = db_delete k (db s)).
Proof.
  destruct p as [this cb|this cb|this cb|this cb|cb|key tasks cb]; simpl.
  - left. by destruct error.
  - right; left. exists this. rewrite save_callback_db. simpl. by destruct error.
  - left. by destruct error.
  - destruct (log_error_frame error_removing_mapping error
                (served (del (id this)) error s)) as (Hdb & _).
    destruct (served_frame (del (id this)) error s) as (Hdb' & _).
    rewrite Hdb, Hdb'.
    destruct (db_read (internalUserID this) (db s)).
    + right; right. exists (internalUserID this).
      destruct (destroy_callback_frame cb error true
        (set_db (db_delete (internalUserID this) (db s))
           (log_error error_removing_mapping error (served (del (id this)) error s))))
        as (-> & _). done.
    + left.
      destruct (destroy_callback_frame cb error false
        (log_error error_removing_mapping error (served (del (id this)) error s)))
        as (-> & _). by rewrite Hdb, Hdb'.
  - left. destruct error; simpl; [done|]. by rewrite series_db.
  - left. destruct error; simpl.
    + by rewrite series_db.
    + destruct (userMap (redis s) !! key); simpl; [done|]. by rewrite series_db.
Qed.

Lemma db_delete_absent k (d : Index) : db_get k d = None → db_delete k d = d.
Proof.
  induction d as [|[k' m] d IH]; simpl; [done|].
  case_decide; [done|]. intros Hget. by rewrite IH.
Qed.

Lemma series_pending tasks callback s :
  pending (series tasks callback s) = pending s ++ next_task tasks callback.
Proof.
  destruct tasks; simpl; [|done]. rewrite app_nil_r. by destruct callback.
Qed.

Lemma on_reply_parts p error s :
  db (on_reply p error s) =
    match p with
    | save_sadd this _ => db_set (internalUserID this) this (db s)
    | destroy_del this _ => db_delete (internalUserID this) (db s)
    | _ => db s
    end
  ∧ nextID (on_reply p error s) =
    match p with
    | save_sadd _ (Some (save_resynced mapping _ _)) => Z.max (nextID s) (id mapping + 1)
    | _ => nextID s
    end
  ∧ redis (on_reply p error s) = redis (served (command p) error s)
  ∧ pending (on_reply p error s) = pending s ++ sent p error s.
Proof.
  destruct p as [this cb|this cb|this cb|this cb|cb|key tasks cb]; cbn [on_reply sent].
  - destruct error; simpl; done.
  - set (s1 := set_db _ _).
    assert (db s1 = db_set (internalUserID this) this (db s) ∧ nextID s1 = nextID s
            ∧ redis s1 = redis (served (sadd (id this)) error s)
            ∧ pending s1 = pending s) as (Hd & Hn & Hr & Hp)
      by (unfold s1; by destruct error).
    destruct cb as [[f|i m [f|]|m tasks cb]|];
      try (simpl; rewrite ?app_nil_r; done).
    cbn [save_callback].
    rewrite series_db, series_nextID, series_redis, series_pending.
    cbn [db nextID redis pending emit].
    case_decide as Hc; rewrite Hn in Hc;
      cbn [db nextID redis pending set_nextID]; rewrite ?Hn, Hp;
      split_and!; try done; lia.
  - destruct error; simpl; done.
  - set (s1 := log_error _ _ _).
    assert (db s1 = db s ∧ nextID s1 = nextID s
            ∧ redis s1 = redis (served (del (id this)) error s)
            ∧ pending s1 = pending s) as (Hd & Hn & Hr & Hp)
      by (unfold s1; by destruct error).
    rewrite Hd. rewrite app_nil_r.
    destruct (db_read (internalUserID this) (db s)) eqn:Hget.
    + destruct (destroy_callback_frame cb error true
                  (set_db (db_delete (internalUserID this) (db s)) s1))
        as (-> & -> & -> & ->). done.
    + destruct (destroy_callback_frame cb error false s1) as (-> & -> & -> & ->).
      by rewrite db_delete_absent by by apply db_read_None.
  - destruct error; simpl; rewrite ?app_nil_r; [done|].
    by rewrite series_db, series_nextID, series_redis, series_pending.
  - destruct error; simpl.
    + by rewrite series_db, series_nextID, series_redis, series_pending.
    + destruct (userMap (redis s) !! key); simpl; [done|].
      by rewrite series_db, series_nextID, series_redis, series_pending.
Qed.

Lemma call_db o s : db (call o s) = db s.
Proof.
  destruct o as [i e m cb|i cb|m cb|cb|cb|this cb|this cb]; simpl; try done.
  - unfold removeMapping. by rewrite scan_spec.
  - unfold removeMappingMeetingId. rewrite scan_spec. by destruct cb.
Qed.

Lemma step_index_ok s a : index_ok (db s) → index_ok (db (step s a)).
Proof.
  intros Hok. destruct a as [o|error]; simpl.
  - by rewrite call_db.
  - unfold reply. destruct (pending s) as [|p q]; [done|].
    destruct (on_reply_db p error (set_pending q s)) as [->|[[this ->]|[k ->]]].
    + done.
    + by apply index_ok_set.
    + by apply index_ok_delete.
Qed.

Lemma run_index_ok actions s : index_ok (db s) → index_ok (db (run actions s)).
Proof.
  revert s. induction actions as [|a actions IH]; intros s Hok; [done|].
  apply IH. by apply step_index_ok.
Qed.

(** ** The range of the model *)

(** On the integers that Numbers hold exactly, up to 2^53 on both sides,
    the arithmetic of the code is that of the model. *)
Lemma Number_of_exact z :
  - 9007199254740992 ≤ z ≤ 9007199254740992 → Number_of z = z.
Proof.
  intros Hz. unfold Number_of.
  destruct (decide (Z.abs z = 9007199254740992)) as [Hmax|Hless].
  - assert (z = 9007199254740992 ∨ z = - 9007199254740992) as [-> | ->] by lia;
      reflexivity.
  - assert (Z.max 0 (Z.log2 (Z.abs z) - 52) = 0) as ->.
    { destruct (decide (Z.abs z = 0)) as [->|Hpos]; [reflexivity|].
      assert (Z.log2 (Z.abs z) < 53); [|lia].
      apply Z.log2_lt_pow2; [lia|]. change (2 ^ 53) with 9007199254740992. lia. }
    change (2 ^ 0) with 1. rewrite Z.mod_1_r, Z.div_1_r.
    change (2 * 0 <? 1) with true. cbv iota. lia.
Qed.

Lemma post_increment_exact n :
  safe n → post_increment n = (n, n + 1).
Proof.
  intros Hn. unfold post_increment, safe in *. by rewrite Number_of_exact by lia.
Qed.

Lemma parseInt_exact numeral : safe numeral → parseInt numeral = numeral.
Proof. intros Hn. unfold safe in Hn. apply Number_of_exact. lia. Qed.

Lemma raise_exact mapping_id n :
  safe mapping_id →
  raise mapping_id n = if decide (n ≤ mapping_id) then mapping_id + 1 else n.
Proof.
  intros Hid. unfold raise, safe in *. case_decide; [|done].
  apply Number_of_exact. lia.
Qed.

Lemma within_model_run store actions :
  faithful store actions → within_model (run actions (startup store)).
Proof. intros Hf. by exists store, actions. Qed.

Lemma within_model_index_ok s : within_model s → index_ok (db s).
Proof. intros (store & actions & _ & ->). apply run_index_ok, index_ok_nil. Qed.

Lemma two_users_within_model : within_model two_users.
Proof.
  apply (within_model_run empty_store). apply (bool_decide_unpack _).
  vm_compute. exact I.
Qed.

Lemma same_user_twice_within_model : within_model same_user_twice.
Proof.
  apply (within_model_run empty_store). apply (bool_decide_unpack _).
  vm_compute. exact I.
Qed.

(** ** One mapping per user (C7) *)

(** C7.  In every state that the process reaches from its start, by any
    operations ([addMapping], [removeMapping], [removeMappingMeetingId],
    [resync], [initialize], [save], [destroy]) and any replies of the store
    in between, every name of the index holds a mapping whose
    [internalUserID] is that name, no name occurs twice, and so the
    mappings listed by [allSync] have pairwise different [internalUserID]s. *)
Theorem index_one_mapping_per_internalUserID (store : Redis) (actions : list Action) :
  let s := run actions (startup store) in
  (∀ k m, db_get k (db s) = Some m → internalUserID m = k)
  ∧ NoDup (db s).*1
  ∧ NoDup (internalUserID <$> allSync s).
Proof.
  intros s.
  destruct (run_index_ok actions (startup store) index_ok_nil) as [Hnd Hkey].
  fold s in Hnd, Hkey. split_and!.
  - intros k m Hget. by apply Hkey, db_get_Some_elem.
  - done.
  - unfold allSync.
    replace (internalUserID <$> (db s).*2) with (db s).*1; [done|].
    clear Hnd. induction (db s) as [|[k m] d IH]; [done|]. simpl. f_equal.
    + symmetry. apply Hkey. by left.
    + apply IH. intros k' m' Hin. apply Hkey. by right.
Qed.

(** ** Pending [save]s and [destroy]s complete *)

Lemma save_callback_pending callback error result s :
  no_resync [save_sadd result callback] →
  pending (save_callback callback error result s) = pending s.
Proof.
  intros [H _]%Forall_cons.
  by destruct callback as [[f|i m [f|]|m tasks cb]|].
Qed.

(** Outside of [resync], the closure of HMSET sends SADD, that of SREM
    sends DEL, and the other two send nothing. *)
Lemma on_reply_pending p error s :
  no_resync [p] →
  pending (on_reply p error s) =
  pending s ++
  match p with
  | save_hmset this callback => [save_sadd this callback]
  | destroy_srem this callback => [destroy_del this callback]
  | _ => []
  end.
Proof.
  intros Hp. pose proof Hp as [H _]%Forall_cons.
  destruct p as [this cb|this cb|this cb|this cb|cb|key tasks cb]; simpl; try done.
  - by destruct error.
  - rewrite save_callback_pending by done. rewrite app_nil_r. by destruct error.
  - by destruct error.
  - rewrite app_nil_r.
    destruct (log_error_frame error_removing_mapping error
                (served (del (id this)) error s)) as (Hdb & _ & _ & Hq).
    destruct (served_frame (del (id this)) error s) as (Hdb' & _ & Hq' & _).
    destruct (db_read _ _);
      match goal with
      | |- pending (destroy_callback ?c ?e ?b ?t) = _ =>
          destruct (destroy_callback_frame c e b t) as (_ & _ & _ & ->)
      end; simpl; by rewrite ?Hq, ?Hq'.
Qed.

Lemma replies_needed_app q1 q2 :
  replies_needed (q1 ++ q2) = (replies_needed q1 + replies_needed q2)%nat.
Proof. induction q1 as [|[] q1 IH]; simpl; lia. Qed.

Lemma reply_no_resync error s :
  no_resync (pending s) →
  pending s ≠ [] →
  no_resync (pending (reply error s))
  ∧ S (replies_needed (pending (reply error s))) = replies_needed (pending s).
Proof.
  intros Hq Hne. unfold reply. destruct (pending s) as [|p q]; [done|].
  apply Forall_cons in Hq as [Hp Hq].
  rewrite on_reply_pending by (by constructor). simpl. split.
  - apply Forall_app. split; [done|].
    destruct p as [this cb|this cb|this cb|this cb|cb|key tasks cb];
      try done; by repeat constructor.
  - rewrite replies_needed_app. destruct p; simpl; lia.
Qed.

(** Outside of [resync], as many replies as [replies_needed] counts, with
    or without errors, leave nothing pending. *)
Lemma replies_complete errors s :
  no_resync (pending s) →
  length errors = replies_needed (pending s) →
  pending (run (Reply <$> errors) s) = [].
Proof.
  revert s. induction errors as [|error errors IH]; intros s Hq Hlen; simpl in *.
  - destruct (pending s) as [|p q]; [done|].
    destruct p; simpl in Hlen; lia.
  - destruct (reply_no_resync error s Hq) as [Hq' Hn].
    + intros Hnil. rewrite Hnil in Hlen. done.
    + apply IH; [done | lia].
Qed.

Lemma adds_pending_no_resync q : adds_pending q → no_resync q.
Proof.
  intros H. eapply Forall_impl; [exact H|].
  intros [this [[|i m cb|]|]|this [[|i m cb|]|]| | | |]; done.
Qed.

(** ** Last write wins (C1) *)

Lemma getExternalUserID_db u s :
  getExternalUserID u s = externalUserID <$> db_get u (db s).
Proof.
  unfold getExternalUserID, db_read. destruct (db_get u (db s)); [done|].
  by case_decide.
Qed.

Lemma settle_snoc d ms m :
  settle d (ms ++ [m]) = db_set (internalUserID m) m (settle d ms).
Proof. unfold settle. by rewrite foldl_snoc. Qed.

(** While only [addMapping] is called, a step changes the index that the
    pending [save]s will produce only when it is a call, and then by one
    store. *)
Lemma step_adds s a :
  adds_pending (pending s) →
  adds_only [a] →
  adds_pending (pending (step s a))
  ∧ settle (db (step s a)) (in_flight (pending (step s a))) =
    match a with
    | Call (call_addMapping i e m _) =>
        db_set i {| id := nextID s; internalUserID := i;
                    externalUserID := e; meetingId := m |}
          (settle (db s) (in_flight (pending s)))
    | _ => settle (db s) (in_flight (pending s))
    end.
Proof.
  intros Hq Ha. apply Forall_cons in Ha as [Ha _].
  destruct a as [[i e m cb| | | | | |]|error]; try done; simpl.
  - split.
    + apply Forall_app. split; [done|]. by repeat constructor.
    + unfold in_flight. rewrite !omap_app. simpl. rewrite app_nil_r, app_assoc.
      by rewrite settle_snoc.
  - unfold reply. destruct (pending s) as [|p q] eqn:Hp; [by rewrite Hp|].
    apply Forall_cons in Hq as [Hhead Hq].
    destruct p as [this [[|i m cb|]|]|this [[|i m cb|]|]| | | |]; try done; simpl.
    + split.
      * destruct error; simpl; (apply Forall_app; split; [done|]);
          by repeat constructor.
      * unfold in_flight.
        replace (pending (log_error error_saving_mapping error
                   (served (hmset (id this) (toRedis this)) error (set_pending q s))))
          with q by (by destruct error).
        replace (db (log_error error_saving_mapping error
                   (served (hmset (id this) (toRedis this)) error (set_pending q s))))
          with (db s) by (by destruct error).
        rewrite !omap_app. simpl. by rewrite app_nil_r, <- app_assoc.
    + replace (pending (guarded cb (saved error this) _)) with q
        by (by destruct cb, error).
      replace (db (guarded cb (saved error this) _))
        with (db_set (internalUserID this) this (db s))
        by (by destruct cb, error).
      done.
Qed.

Lemma run_adds u actions s :
  adds_pending (pending s) →
  adds_only actions →
  adds_pending (pending (run actions s))
  ∧ externalUserID <$>
      db_get u (settle (db (run actions s)) (in_flight (pending (run actions s)))) =
    latest u actions
      (externalUserID <$> db_get u (settle (db s) (in_flight (pending s)))).
Proof.
  revert s. induction actions as [|a actions IH]; intros s Hq Ha; [done|].
  apply Forall_cons in Ha as [Ha Hrest].
  destruct (step_adds s a Hq) as [Hq' Hset]; [by constructor|].
  destruct (IH (step s a) Hq' Hrest) as [Hq'' Hget].
  split; [done|]. simpl. change (foldl step (step s a) actions) with (run actions (step s a)).
  rewrite Hget, Hset.
  destruct a as [[i e m cb| | | | | |]|error]; try done.
  rewrite db_get_set. by destruct (decide (i = u)).
Qed.

Lemma latest_replies u errors before : latest u (Reply <$> errors) before = before.
Proof. induction errors; simpl; auto. Qed.

Lemma adds_only_replies errors : adds_only (Reply <$> errors).
Proof. induction errors; constructor; auto. Qed.

(** The call itself only sends HMSET: the mapping enters the index in the
    closure of SADD, so a lookup sees it once the two replies have come. *)
Lemma addMapping_sends_only i e m callback u s :
  getExternalUserID u (addMapping i e m callback s) = getExternalUserID u s.
Proof. done. Qed.

(** C1.  Take any state with no command pending and any schedule in which
    the relay only calls [addMapping], the replies of the store (errors or
    not) falling anywhere between the calls.  Once the store has answered
    the commands that are still pending after the schedule, whatever the
    answers, nothing is pending and [getExternalUserID(u)] is the
    [externalUserID] of the last call [addMapping(u, ...)], or what it was
    before the schedule if there is no such call. *)
Theorem addMapping_last_write_wins
    (s : State) (actions : list Action) (errors : list (option Error)) (u : string) :
  pending s = [] →
  adds_only actions →
  length errors = replies_needed (pending (run actions s)) →
  pending (run (Reply <$> errors) (run actions s)) = []
  ∧ getExternalUserID u (run (Reply <$> errors) (run actions s)) =
    latest u actions (getExternalUserID u s).
Proof.
  intros Hs Ha Hlen.
  destruct (run_adds u actions s) as [Hq Hget]; [rewrite Hs; constructor | done |].
  destruct (run_adds u (Reply <$> errors) (run actions s) Hq (adds_only_replies errors))
    as [_ Hget'].
  assert (pending (run (Reply <$> errors) (run actions s)) = []) as Hend
    by (apply replies_complete; [by apply adds_pending_no_resync | done]).
  split; [done|].
  rewrite Hend, latest_replies, Hget, Hs in Hget'.
  by rewrite !getExternalUserID_db.
Qed.

Lemma addMapping_last_write_wins_witness :
  pending (run (Reply <$> three_adds_rest) (run three_adds (startup empty_store))) = []
  ∧ getExternalUserID "u1"
      (run (Reply <$> three_adds_rest) (run three_adds (startup empty_store))) =
    Some "e3".
Proof.
  apply (addMapping_last_write_wins (startup empty_store) three_adds three_adds_rest "u1").
  - reflexivity.
  - repeat constructor.
  - reflexivity.
Defined.

(** ** Callbacks and faults of [save] and [destroy] *)

Lemma invocations_app f t1 t2 :
  invocations f (t1 ++ t2) = (invocations f t1 + invocations f t2)%nat.
Proof. unfold invocations. by rewrite filter_app, length_app. Qed.


Lemma invocations_cons f e t :
  invocations f (e :: t) = ((if is_invoke f e then 1 else 0) + invocations f t)%nat.
Proof. unfold invocations. rewrite filter_cons. by destruct (is_invoke f e). Qed.

Lemma faults_app t1 t2 : faults (t1 ++ t2) = (faults t1 + faults t2)%nat.
Proof. unfold faults. by rewrite filter_app, length_app. Qed.

Lemma faults_cons e t :
  faults (e :: t) = ((if decide (e = TypeError) then 1 else 0) + faults t)%nat.
Proof. unfold faults. rewrite filter_cons. by case_decide. Qed.

Lemma owed_app f q1 q2 : owed f (q1 ++ q2) = (owed f q1 + owed f q2)%nat.
Proof. unfold owed. by rewrite filter_app, length_app. Qed.

Lemma owed_cons f p q :
  owed f (p :: q) = ((if calls_back f p then 1 else 0) + owed f q)%nat.
Proof. unfold owed. rewrite filter_cons. by destruct (calls_back f p). Qed.

(** The events of the closure of a command, outside of [resync]:
    [present] tells whether [db[this.internalUserID]] is set when the
    closure of DEL runs. *)
Lemma on_reply_trace p error s :
  no_resync [p] →
  trace (on_reply p error s) =
  trace s ++
  match p with
  | save_hmset _ _ => error_line error_saving_mapping error
  | save_sadd this callback =>
      error_line error_saving_mapping_ID error ++
      match callback with
      | Some (save_function f) => [Invoke f (saved error this)]
      | Some (save_added i mapping callback) =>
          Logger_info (added_user_mapping i (print mapping)) ::
          match callback with
          | Some f => [Invoke f (saved error this)]
          | None => []
          end
      | _ => []
      end
  | destroy_srem _ _ => error_line error_removing_mapping_ID error
  | destroy_del this callback =>
      let present := bool_decide (is_Some (db_read (internalUserID this) (db s))) in
      error_line error_removing_mapping error ++
      match callback with
      | Some (destroy_function f) => [Invoke f (destroyed error present)]
      | Some (destroy_removed i mapping callback) =>
          Logger_info (removing_user_mapping i (print mapping)) ::
          match callback with
          | Some f => [Invoke f (destroyed error present)]
          | None => []
          end
      | Some (destroy_removed_meeting mapping callback) =>
          Logger_info (removing_user_mapping (internalUserID mapping) (print mapping)) ::
          match callback with
          | Some f => [Invoke f (destroyed error present)]
          | None => []
          end
      | None => []
      end
  | _ => []
  end.
Proof.
  intros [H _]%Forall_cons.
  destruct p as [this cb|this cb|this cb|this cb|cb|key tasks cb]; simpl; try done.
  - destruct error; simpl; by rewrite ?app_nil_r.
  - destruct cb as [[f|i m [f|]|m tasks cb]|], error; simpl; try done;
      by rewrite <- ?app_assoc, ?app_nil_r.
  - destruct error; simpl; by rewrite ?app_nil_r.
  - replace (db (log_error error_removing_mapping error
              (served (del (id this)) error s))) with (db s) by (by destruct error).
    destruct (db_read (internalUserID this) (db s)) eqn:Hget; simpl;
      destruct cb as [[f|i m [f|]|m [f|]]|], error; simpl;
      by rewrite <- ?app_assoc, ?app_nil_r.
Qed.

(** Outside of [resync], a reply calls [f] exactly when the closure that
    runs is the last one of a [save] or [destroy] that was given [f]. *)
Lemma reply_invocations f error s :
  no_resync (pending s) →
  (invocations f (trace (reply error s)) + owed f (pending (reply error s)) =
   invocations f (trace s) + owed f (pending s))%nat.
Proof.
  intros Hq. unfold reply. destruct (pending s) as [|p q] eqn:Hp; [by rewrite Hp|].
  apply Forall_cons in Hq as [Hhead Hq].
  assert (no_resync [p]) as Hp1 by (by constructor).
  rewrite on_reply_trace, on_reply_pending by done. simpl.
  rewrite invocations_app, owed_app, owed_cons.
  destruct p as [this [[g|i m [g|]|m tasks cb]|]|this [[g|i m [g|]|m tasks cb]|]
                |this [[g|i m [g|]|m [g|]]|]|this [[g|i m [g|]|m [g|]]|]
                |cb|key tasks cb];
    try done; destruct error; simpl;
    unfold invocations, owed; simpl;
    rewrite ?filter_cons, ?filter_nil; simpl;
    repeat case_bool_decide; simpl; try done; lia.
Qed.

Lemma reply_faults error s :
  no_resync (pending s) → faults (trace (reply error s)) = faults (trace s).
Proof.
  intros Hq. unfold reply. destruct (pending s) as [|p q] eqn:Hp; [done|].
  apply Forall_cons in Hq as [Hhead Hq].
  assert (no_resync [p]) as Hp1 by (by constructor).
  rewrite on_reply_trace by done. simpl. rewrite faults_app.
  destruct p as [this [[g|i m [g|]|m tasks cb]|]|this [[g|i m [g|]|m tasks cb]|]
                |this [[g|i m [g|]|m [g|]]|]|this [[g|i m [g|]|m [g|]]|]
                |cb|key tasks cb];
    try done; destruct error; simpl;
    unfold faults at 2; rewrite ?filter_cons, ?filter_nil;
    repeat case_decide; try done; simpl; lia.
Qed.

(** Outside of [resync], replies call every function that a pending
    [save] or [destroy] was given once, and no other, and nothing throws. *)
Lemma replies_invocations f errors s :
  no_resync (pending s) →
  no_resync (pending (run (Reply <$> errors) s))
  ∧ (invocations f (trace (run (Reply <$> errors) s))
     + owed f (pending (run (Reply <$> errors) s)) =
     invocations f (trace s) + owed f (pending s))%nat
  ∧ faults (trace (run (Reply <$> errors) s)) = faults (trace s).
Proof.
  revert s. induction errors as [|error errors IH]; intros s Hq; [by split_and!|].
  rewrite fmap_cons.
  change (run (Reply error :: (Reply <$> errors)) s)
    with (run (Reply <$> errors) (reply error s)).
  assert (no_resync (pending (reply error s))) as Hq'.
  { destruct (decide (pending s = [])) as [Hp|Hp].
    - unfold reply. rewrite Hp. exact Hq.
    - by apply reply_no_resync. }
  destruct (IH (reply error s) Hq') as (Hq'' & Hinv & Hf).
  split_and!; [done| |].
  - rewrite Hinv. by apply reply_invocations.
  - rewrite Hf. by apply reply_faults.
Qed.

(** With nothing pending, replies find no closure to run. *)
Lemma replies_idle errors s : pending s = [] → run (Reply <$> errors) s = s.
Proof.
  intros Hs. induction errors as [|error errors IH]; [done|].
  rewrite fmap_cons.
  change (run (Reply error :: (Reply <$> errors)) s)
    with (run (Reply <$> errors) (reply error s)).
  unfold reply. by rewrite Hs.
Qed.

(** *** The commands of a scan *)

Section destroys.
Context (matches : UserMapping → Prop) `{!∀ m, Decision (matches m)}.
Context (closure : UserMapping → DestroyCallback).


Lemma destroys_no_resync (d : Index) : no_resync (destroys matches closure d).
Proof. unfold destroys. induction (filter matches d.*2); by constructor. Qed.

Lemma destroys_replies_needed (d : Index) :
  replies_needed (destroys matches closure d) = (2 * length (filter matches d.*2))%nat.
Proof.
  unfold destroys. induction (filter matches d.*2) as [|m l IH]; [done|].
  rewrite fmap_cons. cbn [replies_needed length]. rewrite IH. lia.
Qed.

Lemma destroys_owed f (d : Index) :
  (∀ this, calls_back f (destroy_srem this (Some (closure this))) = true) →
  owed f (destroys matches closure d) = length (filter matches d.*2).
Proof.
  intros Hc. unfold destroys.
  induction (filter matches d.*2) as [|m l IH]; [done|].
  rewrite fmap_cons, owed_cons, Hc, IH. done.
Qed.
End destroys.

(** ** What [removeMapping] returns and when it calls back (C3, C5) *)




Lemma removeMapping_state i callback s :
  (removeMapping i callback s).2 =
  set_pending
    (pending s ++
     destroys (λ mapping, internalUserID mapping = i)
       (λ this, destroy_removed i (scanned_last (db s) this) callback) (db s)) s.
Proof. unfold removeMapping. by rewrite scan_spec. Qed.


(** [removeMapping] calls its callback once for every entry that matches,
    when the second reply for that entry has arrived. *)
Lemma removeMapping_calls_back_per_match i f s errors :
  pending s = [] →
  length errors = (2 * length (matching_user i s))%nat →
  pending (run (Call (call_removeMapping i (Some f)) :: (Reply <$> errors)) s) = []
  ∧ invocations f
      (trace (run (Call (call_removeMapping i (Some f)) :: (Reply <$> errors)) s)) =
    (invocations f (trace s) + length (matching_user i s))%nat.
Proof.
  intros Hs Hlen.
  change (run (Call (call_removeMapping i (Some f)) :: (Reply <$> errors)) s)
    with (run (Reply <$> errors) (removeMapping i (Some f) s).2).
  rewrite removeMapping_state, Hs. simpl.
  set (q := destroys _ _ _).
  assert (no_resync q) as Hq by apply destroys_no_resync.
  assert (pending (run (Reply <$> errors) (set_pending q s)) = []) as Hend.
  { apply replies_complete; [done|]. simpl. unfold q.
    by rewrite destroys_replies_needed. }
  split; [done|].
  destruct (replies_invocations f errors (set_pending q s) Hq) as (_ & Hinv & _).
  rewrite Hend in Hinv. simpl in Hinv. unfold q in Hinv.
  rewrite destroys_owed in Hinv by (intros this; simpl; by rewrite bool_decide_eq_true).
  unfold owed in Hinv. simpl in Hinv. unfold matching_user, allSync. subst q. lia.
Qed.

(** C5 fails at a user that is not in the index: nothing matches, so
    [removeMapping] sends no command and hands its callback to no one; the
    state is unchanged, and whatever replies follow, the callback is never
    called. *)
Lemma removeMapping_without_match_never_calls_back :
  matching_user "u3" two_users = []
  ∧ removeMapping "u3" (Some 9%nat) two_users = (array [undefined; undefined], two_users)
  ∧ ∀ errors,
      invocations 9
        (trace (run (Call (call_removeMapping "u3" (Some 9%nat)) :: (Reply <$> errors))
                  two_users)) = 0%nat.
Proof.
  split_and!; [reflexivity | reflexivity |].
  intros errors.
  change (run (Call (call_removeMapping "u3" (Some 9%nat)) :: (Reply <$> errors)) two_users)
    with (run (Reply <$> errors) two_users).
  by rewrite replies_idle.
Qed.

(** ** When [removeMappingMeetingId] calls back (C4) *)

Lemma removeMappingMeetingId_spec m callback s :
  removeMappingMeetingId m callback s =
  let s1 :=
    set_pending
      (pending s ++
       destroys (λ mapping, meetingId mapping = m)
         (λ this, destroy_removed_meeting (scanned_last (db s) this) callback) (db s)) s in
  match callback with
  | Some f => (returns undefined, emit (Invoke f no_arguments) s1)
  | None => (throws, s1)
  end.
Proof. unfold removeMappingMeetingId. by rewrite scan_spec. Qed.









(** ** Missing callbacks (C10) *)




(** ** Store errors do not stop [addMapping] (C8) *)

(** C8.  Call [addMapping] with nothing pending, and let the store answer
    HMSET with [error1] and SADD with [error2], each an error or not.  Each
    error is logged, the mapping is stored in the index under its
    [internalUserID] whatever the two answers are, and
    [getExternalUserID] returns its [externalUserID]; the callback, when
    there is one, gets the error of SADD and the mapping. *)
Theorem addMapping_stores_whatever_the_store_answers
    (s : State) (i e m : string) (callback : Callback) (error1 error2 : option Error) :
  pending s = [] →
  let mapping :=
    {| id := nextID s; internalUserID := i; externalUserID := e; meetingId := m |} in
  let s' := run [Call (call_addMapping i e m callback); Reply error1; Reply error2] s in
  trace s' =
    trace s ++ error_line error_saving_mapping error1
            ++ error_line error_saving_mapping_ID error2
            ++ Logger_info (added_user_mapping i (print mapping))
            :: match callback with
               | Some f => [Invoke f (saved error2 mapping)]
               | None => []
               end
  ∧ db_get i (db s') = Some mapping
  ∧ getExternalUserID i s' = Some e
  ∧ pending s' = [].
Proof.
  intros Hs mapping s'. subst s'. destruct s as [d n r q t]. simpl in Hs. subst q.
  rewrite getExternalUserID_db.
  destruct error1, error2, callback; simpl;
    rewrite db_get_set, decide_True by done;
    rewrite <- ?app_assoc; done.
Qed.

Lemma addMapping_stores_whatever_the_store_answers_witness :
  trace (run failed_add two_users) =
    trace two_users
      ++ error_line error_saving_mapping (Some "ETIMEDOUT")
      ++ error_line error_saving_mapping_ID (Some "ECONNRESET")
      ++ Logger_info (added_user_mapping "u3" (print (mkUserMapping 3 "e3" "u3" "m1")))
      :: [Invoke 4%nat (saved (Some "ECONNRESET") (mkUserMapping 3 "e3" "u3" "m1"))]
  ∧ db_get "u3" (db (run failed_add two_users)) = Some (mkUserMapping 3 "e3" "u3" "m1")
  ∧ getExternalUserID "u3" (run failed_add two_users) = Some "e3"
  ∧ pending (run failed_add two_users) = [].
Proof.
  apply (addMapping_stores_whatever_the_store_answers
           two_users "u3" "e3" "m1" (Some 4%nat) (Some "ETIMEDOUT") (Some "ECONNRESET")).
  reflexivity.
Defined.

(** ** [resync], task by task *)

Lemma toRedis_fromRedis data : toRedis (fromRedis data) = data.
Proof. by destruct data. Qed.

Lemma run_app actions1 actions2 s :
  run (actions1 ++ actions2) s = run actions2 (run actions1 s).
Proof. apply foldl_app. Qed.

(** A task whose hash is missing: [done(null, null)], and the next task
    starts. *)
Lemma task_absent key tasks callback s :
  pending s = [] →
  userMap (redis s) !! key = None →
  run [Reply None] (series (key :: tasks) callback s) =
  series tasks callback (emit (Done None) s).
Proof.
  intros Hs Hkey. destruct s as [d n r q t]. simpl in *. subst q.
  unfold run, reply. simpl. by rewrite Hkey.
Qed.

(** A task whose hash is listed and stored under its own id: the mapping
    is stored in the index, [nextID] is raised above its id, the store is
    as before whether the two writes succeed or not, and the next task
    starts. *)
Lemma task_present key data tasks callback error1 error2 s :
  pending s = [] →
  userMap (redis s) !! key = Some data →
  data_id data = key →
  key ∈ userMaps (redis s) →
  run [Reply None; Reply error1; Reply error2] (series (key :: tasks) callback s) =
  series tasks callback
    {| db := db_set (data_internalUserID data) (fromRedis data) (db s);
       nextID := Z.max (nextID s) (data_id data + 1);
       redis := redis s;
       pending := [];
       trace := trace s ++ error_line error_saving_mapping error1
                        ++ error_line error_saving_mapping_ID error2
                        ++ [Done (Some (fromRedis data))] |}.
Proof.
  intros Hs Hkey Hid Hin. destruct s as [d n [set hashes] q t].
  cbn [pending redis userMap userMaps] in Hs, Hkey, Hin. subst q key.
  cbn [run foldl step series].
  (* the reply to HGETALL *)
  unfold reply at 3.
  cbv [send pending set_pending on_reply log_error redis userMap save
       db nextID trace]; cbn [app].
  rewrite Hkey.
  cbv [send pending set_pending save db nextID trace redis]; cbn [app].
  (* the reply to HMSET *)
  unfold reply at 2.
  cbv [pending]. cbv [on_reply command send pending set_pending db nextID trace redis].
  (* the reply to SADD *)
  unfold reply at 1.
  destruct error1, error2;
    cbv [pending log_error served emit set_redis set_pending db nextID trace redis app];
    cbv [on_reply command served log_error emit set_redis set_pending set_db save_callback
         set_nextID db nextID trace redis pending execute userMaps userMap];
    rewrite ?toRedis_fromRedis, ?(insert_id _ _ _ Hkey), ?(decide_True _ _ Hin);
    cbv [fromRedis id internalUserID];
    (case_decide; [rewrite Z.max_r by lia | rewrite Z.max_l by lia]);
    cbv [emit set_nextID db nextID redis trace pending error_line];
    cbn [app]; rewrite <- ?app_assoc; reflexivity.
Qed.

Lemma read_cons store key keys :
  read store (key :: keys) =
  match userMap store !! key with
  | Some data => data :: read store keys
  | None => read store keys
  end.
Proof. done. Qed.

Lemma dones_app t1 t2 : dones (t1 ++ t2) = dones t1 ++ dones t2.
Proof. apply omap_app. Qed.

Lemma dones_error_line message error : dones (error_line message error) = [].
Proof. by destruct error. Qed.

Lemma invocations_error_line f message error :
  invocations f (error_line message error) = 0%nat.
Proof. by destruct error. Qed.

Lemma faults_error_line message error : faults (error_line message error) = 0%nat.
Proof. by destruct error. Qed.

(** The tasks of a [resync] whose reads succeed, run to the end from a
    state with nothing pending, when the ids are listed in the set and
    their hashes are stored under their own ids. *)
Lemma series_run writes callback tasks s :
  pending s = [] →
  (∀ key, key ∈ tasks → key ∈ userMaps (redis s)) →
  (∀ key data, key ∈ tasks → userMap (redis s) !! key = Some data → data_id data = key) →
  let s' := run (Reply <$> flat_map (task_replies (redis s) writes) tasks)
                (series tasks callback s) in
  pending s' = []
  ∧ redis s' = redis s
  ∧ db s' = settle (db s) (fromRedis <$> read (redis s) tasks)
  ∧ nextID s' = raised (nextID s) (fromRedis <$> read (redis s) tasks)
  ∧ dones (trace s') =
    dones (trace s) ++ ((λ key, fromRedis <$> userMap (redis s) !! key) <$> tasks)
  ∧ (∀ f, invocations f (trace s') =
          (invocations f (trace s) + if decide (callback = Some f) then 1 else 0)%nat)
  ∧ faults (trace s') = faults (trace s).
Proof.
  revert s. induction tasks as [|key tasks IH]; intros s Hs Hin Hid.
  - unfold run. simpl. split_and!; try (by destruct callback).
    + destruct callback; simpl; rewrite ?dones_app; simpl; by rewrite ?app_nil_r.
    + intros f. destruct callback as [g|]; simpl.
      * rewrite !invocations_app, !invocations_cons. simpl.
        destruct (decide (g = f)) as [->|Hne].
        -- rewrite bool_decide_true by done. rewrite decide_True by done.
           unfold invocations. simpl. lia.
        -- rewrite bool_decide_false by done. rewrite decide_False by congruence.
           unfold invocations. simpl. lia.
      * rewrite invocations_app, invocations_cons. unfold invocations at 2. simpl. lia.
    + destruct callback; simpl; rewrite ?faults_app, ?faults_cons;
        repeat case_decide; try done; unfold faults; simpl; lia.
  - cbv zeta. set (R := run _ _).
    assert (key ∈ key :: tasks) as Hkey by left.
    assert (∀ k, k ∈ tasks → k ∈ key :: tasks) as Hsub by (intros; by right).
    rewrite fmap_cons, read_cons.
    destruct (userMap (redis s) !! key) as [data|] eqn:Hget.
    + pose proof (task_present key data tasks callback (writes key).1 (writes key).2 s
                    Hs Hget (Hid _ _ Hkey Hget) (Hin _ Hkey)) as HT.
      set (s1 := {| db := _ |}) in HT.
      assert (R = run (Reply <$> flat_map (task_replies (redis s) writes) tasks)
                    (series tasks callback s1)) as ->.
      { unfold R. cbn [flat_map]. rewrite fmap_app, run_app.
        unfold task_replies at 2. rewrite Hget. f_equal. exact HT. }
      destruct (IH s1) as (H1 & H2 & H3 & H4 & H5 & H6 & H7); [done|auto|auto|].
      change (redis s1) with (redis s) in *.
      split_and!; try done.
      * rewrite H5. unfold s1. cbn [trace].
        rewrite !dones_app, !dones_error_line. simpl.
        by rewrite <- app_assoc.
      * intros f. rewrite H6. unfold s1. cbn [trace].
        rewrite !invocations_app, !invocations_error_line, invocations_cons.
        unfold invocations at 2. simpl. lia.
      * rewrite H7. unfold s1. cbn [trace].
        rewrite !faults_app, !faults_error_line, faults_cons.
        rewrite decide_False by done. unfold faults at 2. simpl. lia.
    + pose proof (task_absent key tasks callback s Hs Hget) as HT.
      assert (R = run (Reply <$> flat_map (task_replies (redis s) writes) tasks)
                    (series tasks callback (emit (Done None) s))) as ->.
      { unfold R. cbn [flat_map]. rewrite fmap_app, run_app.
        unfold task_replies at 2. rewrite Hget. f_equal. exact HT. }
      destruct (IH (emit (Done None) s)) as (H1 & H2 & H3 & H4 & H5 & H6 & H7);
        [done|auto|auto|].
      change (redis (emit (Done None) s)) with (redis s) in *.
      split_and!; try done.
      * rewrite H5. cbn [trace emit].
        rewrite dones_app. simpl. by rewrite <- app_assoc.
      * intros f. rewrite H6. cbn [trace emit].
        rewrite invocations_app, invocations_cons. unfold invocations at 2.
        simpl. lia.
      * rewrite H7. cbn [trace emit]. rewrite faults_app, faults_cons.
        rewrite decide_False by done. unfold faults at 2. simpl. lia.
Qed.

(** A whole [resync] whose reads succeed, from a state with nothing
    pending and a store whose listed hashes are under their own ids: it
    ends, the store is as before, every listed hash has been saved into
    the index in the order of the set, [nextID] has been raised above
    their ids, and the callback has been called once. *)
Lemma resync_run writes callback s :
  pending s = [] →
  hashes_match (redis s) →
  let s' := run (Call (call_resync callback) :: (Reply <$> resync_replies (redis s) writes))
                s in
  pending s' = []
  ∧ redis s' = redis s
  ∧ db s' = settle (db s) (fromRedis <$> records (redis s))
  ∧ nextID s' = raised (nextID s) (fromRedis <$> records (redis s))
  ∧ dones (trace s') =
    dones (trace s) ++
    ((λ key, fromRedis <$> userMap (redis s) !! key) <$> userMaps (redis s))
  ∧ (∀ f, invocations f (trace s') =
          (invocations f (trace s) + if decide (callback = Some f) then 1 else 0)%nat)
  ∧ faults (trace s') = faults (trace s).
Proof.
  intros Hs Hm.
  assert (run (Call (call_resync callback) :: (Reply <$> resync_replies (redis s) writes)) s
          = run (Reply <$> flat_map (task_replies (redis s) writes) (userMaps (redis s)))
              (series (userMaps (redis s)) callback s)) as ->.
  { unfold resync_replies. rewrite fmap_cons.
    change (run (Call (call_resync callback) :: Reply None :: ?l) s)
      with (run l (reply None (resync callback s))).
    f_equal. destruct s as [d n r q t]. simpl in Hs. subst q. done. }
  apply series_run; [done | done |].
  intros key data Hin. by apply Hm.
Qed.

(** ** What [resync] rebuilds (C2) *)

Lemma internalUserID_fromRedis (l : list RedisData) :
  internalUserID <$> (fromRedis <$> l) = data_internalUserID <$> l.
Proof. induction l as [|data l IH]; [done|]. rewrite !fmap_cons. by rewrite IH. Qed.

Lemma Permutation_insert {A} (x : A) (l1 l2 : list A) :
  l1 ++ x :: l2 ≡ₚ (l1 ++ l2) ++ [x].
Proof. rewrite <- Permutation_cons_append. symmetry. apply Permutation_middle. Qed.

Lemma settle_cons d m ms :
  settle d (m :: ms) = settle (db_set (internalUserID m) m d) ms.
Proof. done. Qed.

(** Mappings with new and pairwise different [internalUserID]s are all
    added to the index. *)
Lemma settle_new (ms : list UserMapping) (d : Index) :
  NoDup (d.*1 ++ (internalUserID <$> ms)) →
  (settle d ms).*2 ≡ₚ d.*2 ++ ms.
Proof.
  revert d. induction ms as [|m ms IH]; intros d Hnd.
  - by rewrite app_nil_r.
  - rewrite settle_cons. rewrite fmap_cons in Hnd.
    assert (db_get (internalUserID m) d = None) as Hnew.
    { apply db_get_None. intros Hin. apply NoDup_app in Hnd as (_ & Hd & _).
      apply (Hd _ Hin). by left. }
    assert ((db_set (internalUserID m) m d).*1 ≡ₚ d.*1 ++ [internalUserID m]
            ∧ (db_set (internalUserID m) m d).*2 ≡ₚ d.*2 ++ [m]) as [Hk Hv].
    { unfold db_set. rewrite Hnew.
      destruct (db_add_split (internalUserID m) m d) as (l1 & l2 & -> & ->).
      rewrite !fmap_app, !fmap_cons. simpl. split; apply Permutation_insert. }
    rewrite IH.
    + rewrite Hv, <- app_assoc. done.
    + rewrite Hk, <- app_assoc. done.
Qed.

Lemma raised_le n ms : n ≤ raised n ms.
Proof.
  revert n. induction ms as [|m ms IH]; intros n; simpl; [done|].
  etrans; [|apply IH]. lia.
Qed.

Lemma raised_above n ms m : m ∈ ms → id m < raised n ms.
Proof.
  revert n. induction ms as [|m' ms IH]; intros n Hin.
  - by apply elem_of_nil in Hin.
  - simpl. apply elem_of_cons in Hin as [->|Hin]; [|by apply IH].
    pose proof (raised_le (Z.max n (id m' + 1)) ms). lia.
Qed.

Lemma read_all_present store keys :
  (∀ key, key ∈ keys → is_Some (userMap store !! key)) →
  length (read store keys) = length keys.
Proof.
  induction keys as [|key keys IH]; intros Hall; [done|].
  rewrite read_cons. destruct (Hall key) as [data ->]; [by left|].
  simpl. f_equal. apply IH. intros k Hk. apply Hall. by right.
Qed.

Lemma records_valid_spec store :
  records_valid store ↔
  ∀ key, key ∈ userMaps store →
         ∃ data, userMap store !! key = Some data ∧ data_id data = key.
Proof.
  unfold records_valid. rewrite Forall_forall. split; intros H key Hin.
  - specialize (H key Hin). destruct (userMap store !! key) as [data|]; [|done].
    exists data. split; [done|]. simpl in H. congruence.
  - destruct (H key Hin) as (data & -> & <-). done.
Qed.

(** C2, as the code has it.  Start the process on a store whose set lists
    N ids, each with a hash stored under that id, and let the hashes have
    pairwise different [internalUserID]s, none of them ["__proto__"], and
    ids that are safe integers.  When SMEMBERS and every HGETALL succeed,
    whatever the answers to the writes, [resync] ends with nothing
    pending, [allSync] lists exactly the N mappings of the hashes, every
    one of their ids is below [nextID], and the callback has been called
    once. *)
Theorem resync_rebuilds_records_of_distinct_users
    (store : Redis) (callback : Callback) (writes : Z → option Error * option Error) :
  records_valid store →
  NoDup (data_internalUserID <$> records store) →
  Forall (λ data, data_internalUserID data ≠ "__proto__" ∧ safe (data_id data))
         (records store) →
  let s' := run (Call (call_resync callback) :: (Reply <$> resync_replies store writes))
                (startup store) in
  pending s' = []
  ∧ length (allSync s') = length (userMaps store)
  ∧ allSync s' ≡ₚ fromRedis <$> records store
  ∧ (∀ m, m ∈ allSync s' → id m < nextID s')
  ∧ (∀ data, data ∈ records store → data_id data < nextID s')
  ∧ (∀ f, invocations f (trace s') = if decide (callback = Some f) then 1%nat else 0%nat).
Proof.
  intros Hvalid0 Hnd _. cbv zeta. set (s' := run _ _).
  pose proof (proj1 (records_valid_spec store) Hvalid0) as Hvalid.
  assert (hashes_match (redis (startup store))) as Hm.
  { intros key data Hin Hget. destruct (Hvalid key Hin) as (data' & Hget' & Hid).
    simpl in Hget. congruence. }
  pose proof (resync_run writes callback (startup store) eq_refl Hm) as H.
  cbv zeta in H. change (redis (startup store)) with store in H. fold s' in H.
  destruct H as (H1 & H2 & H3 & H4 & _ & H6 & _).
  change (db (startup store)) with (@nil (string * UserMapping)) in H3.
  change (nextID (startup store)) with 1 in H4.
  assert (allSync s' ≡ₚ fromRedis <$> records store) as Hperm.
  { unfold allSync. rewrite H3. rewrite settle_new; [done|]. simpl.
    by rewrite internalUserID_fromRedis. }
  split_and!.
  - done.
  - rewrite Hperm, length_fmap. apply read_all_present.
    intros key Hin. destruct (Hvalid key Hin) as (data & -> & _). by eexists.
  - done.
  - intros m Hin. rewrite H4. apply raised_above. by rewrite <- Hperm.
  - intros data Hin. rewrite H4.
    change (data_id data) with (id (fromRedis data)).
    apply raised_above. by apply list_elem_of_fmap_2.
  - intros f. by rewrite H6.
Qed.

Lemma resync_rebuilds_records_of_distinct_users_witness :
  pending two_users_restarted = []
  ∧ length (allSync two_users_restarted) = length (userMaps (redis two_users))
  ∧ allSync two_users_restarted ≡ₚ fromRedis <$> records (redis two_users)
  ∧ (∀ m, m ∈ allSync two_users_restarted → id m < nextID two_users_restarted)
  ∧ (∀ data, data ∈ records (redis two_users) →
             data_id data < nextID two_users_restarted)
  ∧ (∀ f, invocations f (trace two_users_restarted) =
          if decide (Some 5%nat = Some f) then 1%nat else 0%nat).
Proof.
  apply (resync_rebuilds_records_of_distinct_users
           (redis two_users) (Some 5%nat) no_write_errors).
  - repeat constructor.
  - apply (bool_decide_unpack _). vm_compute. exact I.
  - apply (bool_decide_unpack _). vm_compute. exact I.
Defined.

(** C2 fails as stated.  After [addMapping("u1", ...)] twice the set lists
    the ids 1 and 2, each with its hash, for the same [internalUserID];
    a [resync] of a new process on that store stores both under ["u1"] and
    [allSync] lists one mapping, not two. *)
Lemma resync_merges_records_of_one_user :
  userMaps (redis same_user_twice) = [1; 2]
  ∧ records_valid (redis same_user_twice)
  ∧ length (allSync (run (Call (call_resync None)
                            :: (Reply <$> resync_replies (redis same_user_twice)
                                            no_write_errors))
                       (startup (redis same_user_twice)))) = 1%nat.
Proof. split_and!; [reflexivity | repeat constructor | reflexivity]. Qed.

(** ** The allocator (C6) *)











(** ** What a closure does to each part of the state *)

Lemma call_parts o s :
  db (call o s) = db s
  ∧ nextID s ≤ nextID (call o s)
  ∧ redis (call o s) = redis s.
Proof.
  destruct o as [i e m cb|i cb|m cb|cb|cb|this cb|this cb]; simpl; try done.
  - split_and!; [done | lia | done].
  - by rewrite removeMapping_state.
  - rewrite removeMappingMeetingId_spec. by destruct cb.
Qed.

(** ** Every hash is stored under its own id *)

Lemma execute_hashes_own_id p store :
  hashes_own_id store → hashes_own_id (execute (command p) store).
Proof.
  intros Hown. destruct p as [this cb|this cb|this cb|this cb|cb|key tasks cb];
    simpl; try done.
  - by apply map_Forall_insert_2.
  - by apply map_Forall_delete.
Qed.

Lemma step_hashes_own_id s a :
  hashes_own_id (redis s) → hashes_own_id (redis (step s a)).
Proof.
  intros Hown. destruct a as [o|error]; simpl.
  - by destruct (call_parts o s) as (_ & _ & ->).
  - unfold reply. destruct (pending s) as [|p q]; [done|].
    destruct (on_reply_parts p error (set_pending q s)) as (_ & _ & -> & _).
    destruct error; simpl; [done|]. by apply execute_hashes_own_id.
Qed.

(** Whatever the operations and the replies, a store in which every hash
    is under its own id stays so. *)
Lemma run_hashes_own_id actions s :
  hashes_own_id (redis s) → hashes_own_id (redis (run actions s)).
Proof.
  revert s. induction actions as [|a actions IH]; intros s Hown; [done|].
  apply IH. by apply step_hashes_own_id.
Qed.

(** ** The ids of the index are below [nextID] *)









(** ** The record of a superseded mapping (C9) *)

(** [addMapping] and the two replies to its [save], from a state with
    nothing pending. *)
Lemma addMapping_run s i e m callback error1 error2 :
  pending s = [] →
  let mapping :=
    {| id := nextID s; internalUserID := i; externalUserID := e; meetingId := m |} in
  run [Call (call_addMapping i e m callback); Reply error1; Reply error2] s =
  {| db := db_set i mapping (db s);
     nextID := nextID s + 1;
     redis := redis (served (sadd (nextID s)) error2
                       (served (hmset (nextID s) (toRedis mapping)) error1 s));
     pending := [];
     trace := trace s ++ error_line error_saving_mapping error1
                      ++ error_line error_saving_mapping_ID error2
                      ++ Logger_info (added_user_mapping i (print mapping))
                      :: match callback with
                         | Some f => [Invoke f (saved error2 mapping)]
                         | None => []
                         end |}.
Proof.
  intros Hs mapping. subst mapping. destruct s as [d n r q t]. simpl in Hs. subst q.
  destruct error1, error2, callback;
    cbv [run foldl step call addMapping save send reply on_reply command served
         log_error set_pending set_nextID set_db set_redis emit save_callback
         guarded pending nextID db redis trace error_line id internalUserID];
    cbn [app]; rewrite <- ?app_assoc; reflexivity.
Qed.




(** ** Pending [destroy]s, run to the end *)

Lemma destroys_pending_no_resync q : destroys_pending q → no_resync q.
Proof.
  intros H. eapply Forall_impl; [exact H|]. intros [| | | | |]; done.
Qed.

Lemma wipe_snoc d ms m : wipe d (ms ++ [m]) = db_delete (internalUserID m) (wipe d ms).
Proof. unfold wipe. by rewrite foldl_snoc. Qed.

(** A reply to a pending [destroy] changes neither the index that the
    pending [destroy]s will leave, nor, when it is no error, the set and
    the hashes that they will leave. *)
Lemma reply_destroys error s :
  destroys_pending (pending s) →
  destroys_pending (pending (reply error s))
  ∧ wipe (db (reply error s)) (to_delete (pending (reply error s))) =
    wipe (db s) (to_delete (pending s))
  ∧ nextID (reply error s) = nextID s
  ∧ (error = None →
     unlist (userMaps (redis (reply error s))) (to_unlist (pending (reply error s))) =
       unlist (userMaps (redis s)) (to_unlist (pending s))
     ∧ unhash (userMap (redis (reply error s))) (to_delete (pending (reply error s))) =
       unhash (userMap (redis s)) (to_delete (pending s))).
Proof.
  intros Hq. unfold reply. destruct (pending s) as [|p q] eqn:Hp.
  { rewrite Hp. by split_and!. }
  apply Forall_cons in Hq as [Hhead Hq].
  destruct (on_reply_parts p error (set_pending q s)) as (-> & -> & -> & ->).
  destruct p as [| |this cb|this cb| |]; try done;
    cbn [sent pending set_pending db nextID].
  - split_and!.
    + apply Forall_app. split; [done|]. by repeat constructor.
    + unfold to_delete. rewrite !omap_app. simpl. by rewrite app_nil_r, <- app_assoc.
    + done.
    + intros ->. unfold to_delete, to_unlist. rewrite !omap_app. simpl.
      rewrite !app_nil_r. split; [done|].
      by rewrite <- app_assoc.
  - rewrite app_nil_r. split_and!; [done|done|done|].
    intros ->. by simpl.
Qed.

Lemma replies_destroys errors s :
  destroys_pending (pending s) →
  destroys_pending (pending (run (Reply <$> errors) s))
  ∧ wipe (db (run (Reply <$> errors) s)) (to_delete (pending (run (Reply <$> errors) s))) =
    wipe (db s) (to_delete (pending s))
  ∧ nextID (run (Reply <$> errors) s) = nextID s
  ∧ (Forall (λ error, error = None) errors →
     unlist (userMaps (redis (run (Reply <$> errors) s)))
            (to_unlist (pending (run (Reply <$> errors) s))) =
       unlist (userMaps (redis s)) (to_unlist (pending s))
     ∧ unhash (userMap (redis (run (Reply <$> errors) s)))
              (to_delete (pending (run (Reply <$> errors) s))) =
       unhash (userMap (redis s)) (to_delete (pending s))).
Proof.
  revert s. induction errors as [|error errors IH]; intros s Hq; [by split_and!|].
  rewrite fmap_cons.
  change (run (Reply error :: (Reply <$> errors)) s)
    with (run (Reply <$> errors) (reply error s)).
  destruct (reply_destroys error s Hq) as (Hq' & Hdb & Hn & Hstore).
  destruct (IH (reply error s) Hq') as (Hq'' & Hdb' & Hn' & Hstore').
  split_and!; [done | by rewrite Hdb' | by rewrite Hn' |].
  intros [Hnone Hrest]%Forall_cons.
  destruct (Hstore Hnone) as [<- <-]. by apply Hstore'.
Qed.

(** *** What a wiped index holds *)

Lemma filter_ext_in {A} (P Q : A → Prop) `{!∀ x, Decision (P x)} `{!∀ x, Decision (Q x)}
    (l : list A) :
  (∀ x, x ∈ l → P x ↔ Q x) → filter P l = filter Q l.
Proof.
  induction l as [|x l IH]; intros Hiff; [done|].
  rewrite !filter_cons.
  assert (filter P l = filter Q l) as -> by (apply IH; intros y Hy; apply Hiff; by right).
  destruct (Hiff x) as [H1 H2]; [by left|].
  destruct (decide (P x)), (decide (Q x)); naive_solver.
Qed.

Lemma filter_all {A} (P : A → Prop) `{!∀ x, Decision (P x)} (l : list A) :
  Forall P l → filter P l = l.
Proof.
  induction 1 as [|x l Hx Hl IH]; [done|].
  rewrite filter_cons, decide_True by done. by rewrite IH.
Qed.

Lemma db_delete_filter k (d : list (string * UserMapping)) :
  NoDup d.*1 → db_delete k d = filter (λ entry, entry.1 ≠ k) d.
Proof.
  induction d as [|[k' m] d IH]; intros Hnd; [done|].
  rewrite fmap_cons in Hnd. apply NoDup_cons in Hnd as [Hk' Hnd].
  cbn [db_delete]. rewrite filter_cons. cbn [fst].
  destruct (decide (k' = k)) as [->|Hne].
  - rewrite decide_False by (intros H; by apply H).
    symmetry. apply filter_all.
    apply Forall_forall. intros [k'' m'] Hin. simpl. intros ->.
    apply Hk'. by apply (list_elem_of_fmap_2 fst) in Hin.
  - rewrite decide_True by done. by rewrite IH.
Qed.

Lemma filter_keys_NoDup (P : string * UserMapping → Prop) `{!∀ x, Decision (P x)}
    (d : list (string * UserMapping)) :
  NoDup d.*1 → NoDup (filter P d).*1.
Proof.
  intros Hnd. eapply sublist_NoDup; [exact Hnd|].
  apply fmap_sublist, sublist_filter.
Qed.

Lemma wipe_filter ms (d : list (string * UserMapping)) :
  NoDup d.*1 →
  wipe d ms = filter (λ entry, entry.1 ∉ internalUserID <$> ms) d.
Proof.
  revert d. induction ms as [|m ms IH] using rev_ind; intros d Hnd.
  - symmetry. apply filter_all. apply Forall_forall.
    intros entry _. apply not_elem_of_nil.
  - rewrite wipe_snoc, IH by done.
    rewrite db_delete_filter by by apply filter_keys_NoDup.
    rewrite list_filter_filter. apply list_filter_iff.
    intros [k x]. simpl. rewrite fmap_app, elem_of_app. simpl.
    rewrite list_elem_of_singleton. naive_solver.
Qed.

(** Deleting the entries of the mappings that satisfy [P] from an index
    whose entries are under their own [internalUserID]s leaves the
    entries that do not satisfy [P]. *)
Lemma wipe_matching (P : UserMapping → Prop) `{!∀ m, Decision (P m)} (d : list (string * UserMapping)) :
  index_ok d →
  wipe d (filter P d.*2) = filter (λ entry, ¬ P entry.2) d.
Proof.
  intros [Hnd Hkey]. rewrite wipe_filter by done.
  apply filter_ext_in. intros [k x] Hin. simpl. split.
  - intros Hk HP. apply Hk. apply list_elem_of_fmap. exists x. split.
    + symmetry. by apply Hkey.
    + apply list_elem_of_filter. split; [done|].
      by apply (list_elem_of_fmap_2 snd) in Hin.
  - intros HnP (y & Hy & [HPy ((k' & y') & -> & Hin')%list_elem_of_fmap]%list_elem_of_filter)%list_elem_of_fmap.
    simpl in *. apply HnP.
    assert (k' = k) as -> by (rewrite Hy; symmetry; by apply Hkey).
    assert (db_get k d = Some x) as Hx by by apply db_get_elem.
    assert (db_get k d = Some y') as Hy' by by apply db_get_elem.
    congruence.
Qed.

Lemma filter_values (P : UserMapping → Prop) `{!∀ m, Decision (P m)} (d : list (string * UserMapping)) :
  (filter (λ entry, P entry.2) d).*2 = filter P d.*2.
Proof.
  induction d as [|[k x] d IH]; [done|].
  rewrite fmap_cons, !filter_cons. simpl. case_decide; [|done].
  rewrite fmap_cons. simpl. by rewrite IH.
Qed.

Lemma db_get_filter (P : UserMapping → Prop) `{!∀ m, Decision (P m)}
    (d : list (string * UserMapping)) k :
  NoDup d.*1 →
  db_get k (filter (λ entry, P entry.2) d) =
  match db_get k d with
  | Some x => if decide (P x) then Some x else None
  | None => None
  end.
Proof.
  induction d as [|[k' x] d IH]; intros Hnd; [done|].
  rewrite fmap_cons in Hnd. apply NoDup_cons in Hnd as [Hk' Hnd].
  rewrite filter_cons. cbn [snd db_get].
  destruct (decide (k' = k)) as [->|Hne].
  - destruct (decide (P x)); [cbn [db_get]; by rewrite decide_True|].
    apply db_get_None. intros Hin. apply Hk'.
    eapply elem_of_sublist; [exact Hin|]. apply fmap_sublist, sublist_filter.
  - destruct (decide (P x)); [cbn [db_get]; rewrite decide_False by done|]; by apply IH.
Qed.

(** *** A scan and its replies *)

Lemma to_delete_destroys (P : UserMapping → Prop) `{!∀ m, Decision (P m)}
    closure (d : Index) :
  to_delete (destroys P closure d) = filter P d.*2
  ∧ to_unlist (destroys P closure d) = filter P d.*2.
Proof.
  unfold to_delete, to_unlist, destroys.
  generalize (filter P d.*2). intros l.
  assert (omap (λ p, match p with destroy_del this _ => Some this | _ => None end)
            ((λ m, destroy_srem m (Some (closure m))) <$> l) = []) as ->
    by (induction l; [done | by rewrite fmap_cons]).
  assert (omap (λ p, match p with destroy_srem this _ => Some this | _ => None end)
            ((λ m, destroy_srem m (Some (closure m))) <$> l) = l) as ->; [|done].
  induction l as [|m l IH]; [done|]. rewrite fmap_cons.
  change (m :: omap (λ p, match p with destroy_srem this _ => Some this | _ => None end)
            ((λ m, destroy_srem m (Some (closure m))) <$> l) = m :: l).
  by rewrite IH.
Qed.

Lemma destroys_are_destroys (P : UserMapping → Prop) `{!∀ m, Decision (P m)}
    closure (d : Index) :
  destroys_pending (destroys P closure d).
Proof. unfold destroys. induction (filter P d.*2); by constructor. Qed.

(** The [destroy]s of a scan of the index, answered: the entries that
    match are gone from the index and the others are there as before; when
    no reply is an error, the ids of the matches are gone from the set and
    their hashes are deleted. *)
Lemma scan_run (P : UserMapping → Prop) `{!∀ m, Decision (P m)} closure s errors :
  pending s = destroys P closure (db s) →
  index_ok (db s) →
  length errors = (2 * length (filter P (allSync s)))%nat →
  pending (run (Reply <$> errors) s) = []
  ∧ db (run (Reply <$> errors) s) = filter (λ entry, ¬ P entry.2) (db s)
  ∧ nextID (run (Reply <$> errors) s) = nextID s
  ∧ (Forall (λ error, error = None) errors →
     userMaps (redis (run (Reply <$> errors) s)) =
       unlist (userMaps (redis s)) (filter P (allSync s))
     ∧ userMap (redis (run (Reply <$> errors) s)) =
       unhash (userMap (redis s)) (filter P (allSync s))).
Proof.
  intros Hs Hok Hlen.
  assert (destroys_pending (pending s)) as Hq
    by (rewrite Hs; apply destroys_are_destroys).
  assert (pending (run (Reply <$> errors) s) = []) as Hend.
  { apply replies_complete; [by apply destroys_pending_no_resync|].
    by rewrite Hs, destroys_replies_needed. }
  destruct (replies_destroys errors s Hq) as (_ & Hdb & Hn & Hstore).
  destruct (to_delete_destroys P closure (db s)) as [Hdel Hunl].
  rewrite Hend in Hdb, Hstore. rewrite Hs in Hdb, Hstore.
  rewrite Hdel in Hdb, Hstore. rewrite Hunl in Hstore.
  split_and!; [done| |done|exact Hstore].
  etrans; [exact Hdb|]. by apply wipe_matching.
Qed.

(** Under the invariant of the index, the entries of a user are the one
    stored under the name of the user, if there is one. *)
Lemma matching_user_index_ok i s :
  index_ok (db s) →
  matching_user i s = match db_get i (db s) with Some x => [x] | None => [] end.
Proof.
  unfold matching_user, allSync. intros [Hnd Hkey].
  induction (db s) as [|[k x] d IH]; [done|].
  rewrite fmap_cons in Hnd. apply NoDup_cons in Hnd as [Hk Hnd].
  assert (∀ k' m, (k', m) ∈ d → internalUserID m = k') as Hkey'
    by (intros; apply Hkey; by right).
  rewrite fmap_cons, filter_cons. cbn [snd db_get].
  rewrite (Hkey k x) by by left.
  destruct (decide (k = i)) as [->|Hne]; [|by apply IH].
  f_equal. rewrite IH by done.
  assert (db_get i d = None) as -> by by apply db_get_None. done.
Qed.

Lemma elem_of_unlist k l ms : k ∈ unlist l ms ↔ k ∈ l ∧ k ∉ id <$> ms.
Proof.
  revert l. induction ms as [|m ms IH]; intros l; simpl.
  - split; [intros ?; split; [done | apply not_elem_of_nil] | by intros [? _]].
  - rewrite IH, list_elem_of_filter, not_elem_of_cons. naive_solver.
Qed.

Lemma lookup_unhash k h ms :
  unhash h ms !! k = if decide (k ∈ id <$> ms) then None else h !! k.
Proof.
  revert h. induction ms as [|m ms IH]; intros h.
  - destruct (decide _) as [Hin|]; [by apply elem_of_nil in Hin | done].
  - change (unhash h (m :: ms)) with (unhash (delete (id m) h) ms).
    rewrite IH, fmap_cons.
    destruct (decide (k ∈ id <$> ms)) as [Hin|Hnin].
    + rewrite decide_True; [done | by right].
    + destruct (decide (k = id m)) as [->|Hne].
      * rewrite lookup_delete_eq. rewrite decide_True; [done | by left].
      * rewrite lookup_delete_ne by done.
        rewrite decide_False; [done|]. rewrite not_elem_of_cons. done.
Qed.

Lemma unlist_filter l ms : unlist l ms = filter (λ k, k ∉ id <$> ms) l.
Proof.
  revert l. induction ms as [|m ms IH]; intros l.
  - symmetry. apply filter_all, Forall_forall. intros k _. apply not_elem_of_nil.
  - change (unlist l (m :: ms)) with (unlist (filter (λ x, x ≠ id m) l) ms).
    rewrite IH, list_filter_filter. apply filter_ext_in.
    intros k _. rewrite fmap_cons, not_elem_of_cons. tauto.
Qed.

(** ** Removal *)

(** [removeMapping] and the replies to its commands. *)
Lemma removeMapping_done s i callback errors :
  pending s = [] →
  index_ok (db s) →
  length errors = (2 * length (matching_user i s))%nat →
  let s' := run (Call (call_removeMapping i callback) :: (Reply <$> errors)) s in
  pending s' = []
  ∧ db s' = filter (λ entry, internalUserID entry.2 ≠ i) (db s)
  ∧ nextID s' = nextID s
  ∧ (Forall (λ error, error = None) errors →
     userMaps (redis s') = unlist (userMaps (redis s)) (matching_user i s)
     ∧ userMap (redis s') = unhash (userMap (redis s)) (matching_user i s)).
Proof.
  intros Hs Hok Hlen s'.
  assert (s' = run (Reply <$> errors) (removeMapping i callback s).2) as -> by done.
  rewrite removeMapping_state, Hs, app_nil_l.
  set (s0 := set_pending _ s).
  exact (scan_run (λ mapping, internalUserID mapping = i)
           (λ this, destroy_removed i (scanned_last (db s) this) callback) s0 errors
           eq_refl Hok Hlen).
Qed.

Lemma db_get_without_user i u (d : list (string * UserMapping)) :
  index_ok d →
  db_get u (filter (λ entry, internalUserID entry.2 ≠ i) d) =
  if decide (u = i) then None else db_get u d.
Proof.
  intros [Hnd Hkey].
  etrans; [exact (db_get_filter (λ mapping, internalUserID mapping ≠ i) d u Hnd)|].
  destruct (db_get u d) as [x|] eqn:Hx; [|by case_decide].
  apply db_get_Some_elem, Hkey in Hx. rewrite Hx.
  destruct (decide (u = i)); [by rewrite decide_False by tauto | by rewrite decide_True].
Qed.

(** X1. In a state within the model, once the replies to
    [removeMapping(i, callback)] are in, whatever they are, the user [i]
    has no mapping, the lookup of every other user is what it was, and the
    listing is the one before without the entry of [i]. *)
Theorem removeMapping_forgets_that_user_only s i callback errors :
  within_model s →
  pending s = [] →
  length errors = (2 * length (matching_user i s))%nat →
  let s' := run (Call (call_removeMapping i callback) :: (Reply <$> errors)) s in
  pending s' = []
  ∧ getExternalUserID i s' = None
  ∧ (∀ u, u ≠ i → getExternalUserID u s' = getExternalUserID u s)
  ∧ allSync s' = filter (λ mapping, internalUserID mapping ≠ i) (allSync s)
  ∧ nextID s' = nextID s.
Proof.
  intros Hmodel Hs Hlen s'.
  pose proof (within_model_index_ok s Hmodel) as Hok.
  destruct (removeMapping_done s i callback errors Hs Hok Hlen) as (Hend & Hdb & Hn & _).
  fold s' in Hend, Hdb, Hn.
  split_and!; [done| | | |done].
  - by rewrite getExternalUserID_db, Hdb, db_get_without_user, decide_True.
  - intros u Hu. by rewrite !getExternalUserID_db, Hdb, db_get_without_user, decide_False.
  - unfold allSync. rewrite Hdb.
    exact (filter_values (λ mapping, internalUserID mapping ≠ i) (db s)).
Qed.

Lemma removeMapping_forgets_that_user_only_witness :
  let s' := run (Call (call_removeMapping "u1" None) :: (Reply <$> [None; None]))
                two_users in
  pending s' = []
  ∧ getExternalUserID "u1" s' = None
  ∧ (∀ u, u ≠ "u1" → getExternalUserID u s' = getExternalUserID u two_users)
  ∧ allSync s' = filter (λ mapping, internalUserID mapping ≠ "u1") (allSync two_users)
  ∧ nextID s' = nextID two_users.
Proof.
  apply (removeMapping_forgets_that_user_only two_users "u1" None [None; None]).
  - apply two_users_within_model.
  - reflexivity.
  - reflexivity.
Defined.

Lemma removeMappingMeetingId_state m callback s :
  pending s = [] →
  ∃ s0, call (call_removeMappingMeetingId m callback) s = s0
        ∧ pending s0 =
          destroys (λ mapping, meetingId mapping = m)
            (λ this, destroy_removed_meeting (scanned_last (db s) this) callback) (db s)
        ∧ db s0 = db s ∧ nextID s0 = nextID s ∧ redis s0 = redis s.
Proof.
  intros Hs. eexists. split; [done|].
  unfold call. rewrite removeMappingMeetingId_spec. cbv zeta. rewrite Hs, app_nil_l.
  by destruct callback.
Qed.

(** X2. In a state within the model, once the replies to
    [removeMappingMeetingId(m, callback)] are in, whatever they are, the
    listing is the one before without the mappings of meeting [m], and a
    lookup finds the users of the other meetings only; so it is also when
    [callback] is not a function and the call has thrown. *)
Theorem removeMappingMeetingId_forgets_the_meeting s m callback errors :
  within_model s →
  pending s = [] →
  length errors = (2 * length (matching_meeting m s))%nat →
  let s' := run (Call (call_removeMappingMeetingId m callback) :: (Reply <$> errors)) s in
  pending s' = []
  ∧ allSync s' = filter (λ mapping, meetingId mapping ≠ m) (allSync s)
  ∧ (∀ u, getExternalUserID u s' =
          match db_get u (db s) with
          | Some mapping =>
              if decide (meetingId mapping = m) then None
              else Some (externalUserID mapping)
          | None => None
          end)
  ∧ nextID s' = nextID s.
Proof.
  intros Hmodel Hs Hlen s'.
  pose proof (within_model_index_ok s Hmodel) as Hok.
  destruct (removeMappingMeetingId_state m callback s Hs)
    as (s0 & Hcall & Hq & Hd & Hn0 & _).
  assert (s' = run (Reply <$> errors) s0) as -> by (by rewrite <- Hcall).
  destruct (scan_run (λ mapping, meetingId mapping = m)
              (λ this, destroy_removed_meeting (scanned_last (db s) this) callback)
              s0 errors) as (Hend & Hdb & Hn & _);
    [by rewrite Hd | by rewrite Hd | unfold allSync; by rewrite Hd |].
  rewrite Hd in Hdb. destruct Hok as [Hnd Hkey].
  split_and!; [done| | |congruence].
  - unfold allSync. rewrite Hdb.
    exact (filter_values (λ mapping, meetingId mapping ≠ m) (db s)).
  - intros u. rewrite getExternalUserID_db, Hdb.
    etrans; [exact (f_equal (fmap externalUserID)
                      (db_get_filter (λ mapping, meetingId mapping ≠ m) (db s) u Hnd))|].
    destruct (db_get u (db s)) as [x|]; [|done].
    destruct (decide (meetingId x = m)); [by rewrite decide_False by tauto|].
    by rewrite decide_True.
Qed.

Lemma removeMappingMeetingId_forgets_the_meeting_witness :
  let s' := run (Call (call_removeMappingMeetingId "m1" None)
                   :: (Reply <$> [None; Some "ETIMEDOUT"; None; None])) two_users in
  pending s' = []
  ∧ allSync s' = filter (λ mapping, meetingId mapping ≠ "m1") (allSync two_users)
  ∧ (∀ u, getExternalUserID u s' =
          match db_get u (db two_users) with
          | Some mapping =>
              if decide (meetingId mapping = "m1") then None
              else Some (externalUserID mapping)
          | None => None
          end)
  ∧ nextID s' = nextID two_users.
Proof.
  apply (removeMappingMeetingId_forgets_the_meeting
           two_users "m1" None [None; Some "ETIMEDOUT"; None; None]).
  - apply two_users_within_model.
  - reflexivity.
  - reflexivity.
Defined.

(** X3. In a state within the model, when every reply to
    [removeMappingMeetingId(m, callback)] is an acknowledgement, the store
    has lost the records of the removed mappings and nothing else: the set
    has the members it had but their ids, and their hashes are deleted. *)
Theorem removeMappingMeetingId_clears_the_store s m callback :
  within_model s →
  pending s = [] →
  let removed := matching_meeting m s in
  let s' := run (Call (call_removeMappingMeetingId m callback)
                   :: replicate (2 * length removed) (Reply None)) s in
  (∀ key, key ∈ userMaps (redis s') ↔
          key ∈ userMaps (redis s) ∧ key ∉ id <$> removed)
  ∧ ∀ key, userMap (redis s') !! key =
           if decide (key ∈ id <$> removed) then None else userMap (redis s) !! key.
Proof.
  intros Hmodel Hs removed s'.
  pose proof (within_model_index_ok s Hmodel) as Hok.
  destruct (removeMappingMeetingId_state m callback s Hs)
    as (s0 & Hcall & Hq & Hd & _ & Hr).
  assert (s' = run (Reply <$> replicate (2 * length removed) None) s0) as ->.
  { rewrite <- Hcall. unfold s'. by rewrite fmap_replicate. }
  destruct (scan_run (λ mapping, meetingId mapping = m)
              (λ this, destroy_removed_meeting (scanned_last (db s) this) callback)
              s0 (replicate (2 * length removed) None)) as (_ & _ & _ & Hstore);
    [by rewrite Hd | by rewrite Hd | |].
  { rewrite length_replicate. unfold removed, matching_meeting, allSync. by rewrite Hd. }
  destruct Hstore as [Hset Hhash]; [by apply Forall_replicate|].
  assert (filter (λ mapping, meetingId mapping = m) (allSync s0) = removed) as Hrem
    by (unfold removed, matching_meeting, allSync; by rewrite Hd).
  rewrite Hrem, Hr in Hset, Hhash.
  split; [intros key; by rewrite Hset, elem_of_unlist|].
  intros key. by rewrite Hhash, lookup_unhash.
Qed.

Lemma removeMappingMeetingId_clears_the_store_witness :
  let removed := matching_meeting "m1" two_users in
  let s' := run (Call (call_removeMappingMeetingId "m1" (Some 3%nat))
                   :: replicate (2 * length removed) (Reply None)) two_users in
  (∀ key, key ∈ userMaps (redis s') ↔
          key ∈ userMaps (redis two_users) ∧ key ∉ id <$> removed)
  ∧ ∀ key, userMap (redis s') !! key =
           if decide (key ∈ id <$> removed) then None
           else userMap (redis two_users) !! key.
Proof.
  apply (removeMappingMeetingId_clears_the_store two_users "m1" (Some 3%nat)).
  - apply two_users_within_model.
  - reflexivity.
Defined.

(** X4. In a state within the model, [removeMapping(i, callback)] for a
    user of the index and its two replies: the entry of [i] is deleted
    from the index whatever the replies are; each command that is
    acknowledged has taken effect in the store; an error is logged;
    [callback] receives the error of DEL (not that of SREM) and [true].
    The line logged prints the entry that the scan visited last, [mapping]
    being one variable for all closures. *)
Theorem removeMapping_of_known_user s i x callback error1 error2 :
  within_model s →
  pending s = [] →
  db_get i (db s) = Some x →
  run [Call (call_removeMapping i callback); Reply error1; Reply error2] s =
  {| db := db_delete i (db s);
     nextID := nextID s;
     redis := redis (served (del (id x)) error2 (served (srem (id x)) error1 s));
     pending := [];
     trace := trace s ++ error_line error_removing_mapping_ID error1
                      ++ error_line error_removing_mapping error2
                      ++ Logger_info (removing_user_mapping i
                                        (print (default x (last (allSync s)))))
                      :: match callback with
                         | Some f => [Invoke f (destroyed error2 true)]
                         | None => []
                         end |}.
Proof.
  intros Hmodel Hs Hget.
  pose proof (within_model_index_ok s Hmodel) as Hok.
  change (run [Call (call_removeMapping i callback); Reply error1; Reply error2] s)
    with (run [Reply error1; Reply error2] (removeMapping i callback s).2).
  rewrite removeMapping_state, Hs, app_nil_l.
  unfold destroys.
  change (filter (λ mapping, internalUserID mapping = i) (db s).*2)
    with (matching_user i s).
  rewrite (matching_user_index_ok i s Hok), Hget.
  assert (internalUserID x = i) as Hx
    by (destruct Hok as [_ Hkey]; by apply Hkey, db_get_Some_elem).
  unfold scanned_last, allSync.
  destruct s as [d n r q t]. cbn [db pending nextID redis trace] in *. subst q.
  destruct error1, error2, callback;
    cbv [run foldl step fmap list_fmap reply on_reply command served log_error
         set_pending set_nextID set_db set_redis emit send destroy_callback guarded
         pending nextID db redis trace error_line];
    cbn [app]; rewrite Hx, (db_read_own i x d Hget); cbn [app db trace];
    rewrite <- ?app_assoc; reflexivity.
Qed.

Lemma removeMapping_of_known_user_witness :
  run [Call (call_removeMapping "u1" (Some 7%nat)); Reply (Some "ETIMEDOUT"); Reply None]
      two_users =
  {| db := db_delete "u1" (db two_users);
     nextID := nextID two_users;
     redis := redis (served (del 1) None (served (srem 1) (Some "ETIMEDOUT") two_users));
     pending := [];
     trace := trace two_users
                ++ error_line error_removing_mapping_ID (Some "ETIMEDOUT")
                ++ error_line error_removing_mapping None
                ++ Logger_info (removing_user_mapping "u1"
                                  (print (default (mkUserMapping 1 "e1" "u1" "m1")
                                            (last (allSync two_users)))))
                :: [Invoke 7%nat (destroyed None true)] |}.
Proof.
  apply (removeMapping_of_known_user two_users "u1" (mkUserMapping 1 "e1" "u1" "m1")
           (Some 7%nat) (Some "ETIMEDOUT") None).
  - apply two_users_within_model.
  - reflexivity.
  - reflexivity.
Defined.

Lemma filter_without_added i v (d : list (string * UserMapping)) :
  db_get i d = None →
  filter (λ entry, internalUserID entry.2 ≠ i) (db_set i v d) =
  filter (λ entry, internalUserID entry.2 ≠ i) d
  ∨ internalUserID v ≠ i.
Proof.
  intros Hget. destruct (decide (internalUserID v = i)) as [Hv|]; [left | by right].
  unfold db_set. rewrite Hget.
  destruct (db_add_split i v d) as (l1 & l2 & -> & ->).
  unfold Index. rewrite !filter_app, filter_cons. cbn [snd].
  by rewrite decide_False by tauto.
Qed.

(** X5. In a state within the model, with [nextID] below 2^53,
    [addMapping] for a user whose name is not ["__proto__"] and then
    [removeMapping] of that user, each followed by its replies: whatever
    the four replies are, the user has no mapping afterwards (also when it
    had one before), the other users' lookups are as they were, and one id
    has been used. *)
Theorem addMapping_then_removeMapping s i e m callback1 callback2 e1 e2 e3 e4 :
  within_model s →
  pending s = [] →
  i ≠ "__proto__" →
  nextID s < 9007199254740992 →
  let s' := run [Call (call_addMapping i e m callback1); Reply e1; Reply e2;
                 Call (call_removeMapping i callback2); Reply e3; Reply e4] s in
  pending s' = []
  ∧ getExternalUserID i s' = None
  ∧ (∀ u, u ≠ i → getExternalUserID u s' = getExternalUserID u s)
  ∧ nextID s' = nextID s + 1.
Proof.
  intros Hmodel Hs _ _ s'.
  pose proof (within_model_index_ok s Hmodel) as Hok.
  set (mapping := {| id := nextID s; internalUserID := i; externalUserID := e;
                     meetingId := m |}).
  pose proof (addMapping_run s i e m callback1 e1 e2 Hs) as Hadd. cbv zeta in Hadd.
  fold mapping in Hadd.
  set (s1 := run [Call (call_addMapping i e m callback1); Reply e1; Reply e2] s) in *.
  assert (s' = run (Call (call_removeMapping i callback2) :: (Reply <$> [e3; e4])) s1)
    as -> by done.
  assert (db s1 = db_set i mapping (db s)) as Hdb1 by (by rewrite Hadd).
  assert (index_ok (db s1)) as Hok1
    by (rewrite Hdb1; exact (index_ok_set mapping (db s) Hok)).
  assert (matching_user i s1 = [mapping]) as Hmatch.
  { rewrite (matching_user_index_ok i s1 Hok1), Hdb1, db_get_set.
    by rewrite decide_True. }
  destruct (removeMapping_done s1 i callback2 [e3; e4]) as (Hend & Hdb & Hn & _);
    [by rewrite Hadd | done | by rewrite Hmatch |].
  split_and!; [done| | |].
  - by rewrite getExternalUserID_db, Hdb, db_get_without_user, decide_True.
  - intros u Hu.
    rewrite !getExternalUserID_db, Hdb, db_get_without_user, decide_False by done.
    by rewrite Hdb1, db_get_set, decide_False.
  - rewrite Hn. by rewrite Hadd.
Qed.

Lemma addMapping_then_removeMapping_witness :
  let s' := run [Call (call_addMapping "u1" "e9" "m2" None);
                 Reply (Some "ETIMEDOUT"); Reply None;
                 Call (call_removeMapping "u1" None);
                 Reply None; Reply (Some "ECONNRESET")] two_users in
  pending s' = []
  ∧ getExternalUserID "u1" s' = None
  ∧ (∀ u, u ≠ "u1" → getExternalUserID u s' = getExternalUserID u two_users)
  ∧ nextID s' = nextID two_users + 1.
Proof.
  apply (addMapping_then_removeMapping two_users "u1" "e9" "m2" None None
           (Some "ETIMEDOUT") None None (Some "ECONNRESET")).
  - apply two_users_within_model.
  - reflexivity.
  - discriminate.
  - reflexivity.
Defined.

(** X6. Round trip.  In a state within the model, with [nextID] below
    2^53 and neither a member of the set nor the key of a hash, on a user
    without mapping whose name is not ["__proto__"]: [addMapping] and then
    [removeMapping], every command acknowledged, leave the index, the
    members of the set and the hashes as they were; only the id is used
    up. *)
Theorem addMapping_removeMapping_round_trip s i e m callback1 callback2 :
  within_model s →
  pending s = [] →
  i ≠ "__proto__" →
  nextID s < 9007199254740992 →
  db_get i (db s) = None →
  nextID s ∉ userMaps (redis s) →
  userMap (redis s) !! nextID s = None →
  let s' := run [Call (call_addMapping i e m callback1); Reply None; Reply None;
                 Call (call_removeMapping i callback2); Reply None; Reply None] s in
  pending s' = []
  ∧ db s' = db s
  ∧ (∀ key, key ∈ userMaps (redis s') ↔ key ∈ userMaps (redis s))
  ∧ userMap (redis s') = userMap (redis s)
  ∧ nextID s' = nextID s + 1.
Proof.
  intros Hmodel Hs _ _ Hget Hset Hhash s'.
  pose proof (within_model_index_ok s Hmodel) as Hok.
  set (mapping := {| id := nextID s; internalUserID := i; externalUserID := e;
                     meetingId := m |}).
  pose proof (addMapping_run s i e m callback1 None None Hs) as Hadd. cbv zeta in Hadd.
  fold mapping in Hadd.
  set (s1 := run [Call (call_addMapping i e m callback1); Reply None; Reply None] s) in *.
  assert (s' = run (Call (call_removeMapping i callback2) :: (Reply <$> [None; None])) s1)
    as -> by done.
  assert (db s1 = db_set i mapping (db s)) as Hdb1 by (by rewrite Hadd).
  assert (index_ok (db s1)) as Hok1
    by (rewrite Hdb1; exact (index_ok_set mapping (db s) Hok)).
  assert (matching_user i s1 = [mapping]) as Hmatch.
  { rewrite (matching_user_index_ok i s1 Hok1), Hdb1, db_get_set.
    by rewrite decide_True. }
  destruct (removeMapping_done s1 i callback2 [None; None])
    as (Hend & Hdb & Hn & Hstore); [by rewrite Hadd | done | by rewrite Hmatch |].
  destruct Hstore as [Hmembers Hhashes]; [by repeat constructor|].
  rewrite Hmatch in Hmembers, Hhashes.
  assert (redis (run (Call (call_removeMapping i callback2) :: (Reply <$> [None; None])) s1)
          = redis s) as Hredis; [|rewrite Hredis; split_and!; [done| |tauto|done|]].
  - assert (userMaps (redis s1) = userMaps (redis s) ++ [nextID s]) as Hm1.
    { rewrite Hadd. cbn [served redis set_redis execute userMaps userMap].
      by rewrite decide_False. }
    assert (userMap (redis s1) = <[nextID s := toRedis mapping]> (userMap (redis s)))
      as Hh1 by (by rewrite Hadd).
    rewrite Hm1 in Hmembers. rewrite Hh1 in Hhashes.
    change (unlist ?l [mapping]) with (filter (λ x, x ≠ nextID s) l) in Hmembers.
    change (unhash ?h [mapping]) with (delete (nextID s) h) in Hhashes.
    rewrite filter_app, filter_cons, decide_False, filter_nil, app_nil_r in Hmembers
      by tauto.
    rewrite filter_all in Hmembers
      by (apply Forall_forall; intros k Hk ->; done).
    rewrite delete_insert_eq, delete_id in Hhashes by done.
    destruct (redis (run _ s1)) as [l' h']. destruct (redis s) as [l h].
    cbn [userMaps userMap] in Hmembers, Hhashes. by subst.
  - rewrite Hdb, Hdb1.
    destruct (filter_without_added i mapping (db s) Hget) as [->|]; [|done].
    apply filter_all, Forall_forall. intros [k x] Hin. cbn [snd].
    destruct Hok as [_ Hkey]. rewrite (Hkey k x Hin). intros ->.
    apply db_get_None in Hget. apply Hget.
    apply list_elem_of_fmap. by exists (i, x).
  - rewrite Hn. by rewrite Hadd.
Qed.

Lemma addMapping_removeMapping_round_trip_witness :
  let s' := run [Call (call_addMapping "u3" "e3" "m2" None); Reply None; Reply None;
                 Call (call_removeMapping "u3" (Some 1%nat)); Reply None; Reply None]
                two_users in
  pending s' = []
  ∧ db s' = db two_users
  ∧ (∀ key, key ∈ userMaps (redis s') ↔ key ∈ userMaps (redis two_users))
  ∧ userMap (redis s') = userMap (redis two_users)
  ∧ nextID s' = nextID two_users + 1.
Proof.
  apply (addMapping_removeMapping_round_trip two_users "u3" "e3" "m2" None (Some 1%nat)).
  - apply two_users_within_model.
  - reflexivity.
  - discriminate.
  - reflexivity.
  - reflexivity.
  - apply (bool_decide_unpack _). vm_compute. exact I.
  - reflexivity.
Defined.

(** ** [save] and [destroy] called on a mapping *)

Lemma save_run s this callback error1 error2 :
  pending s = [] →
  run [Call (call_save this callback); Reply error1; Reply error2] s =
  {| db := db_set (internalUserID this) this (db s);
     nextID := nextID s;
     redis := redis (served (sadd (id this)) error2
                       (served (hmset (id this) (toRedis this)) error1 s));
     pending := [];
     trace := trace s ++ error_line error_saving_mapping error1
                      ++ error_line error_saving_mapping_ID error2
                      ++ match callback with
                         | Some f => [Invoke f (saved error2 this)]
                         | None => []
                         end |}.
Proof.
  intros Hs. destruct s as [d n r q t]. cbn [pending] in Hs. subst q.
  destruct error1, error2, callback;
    cbv [run foldl step call save send reply on_reply command served log_error
         set_pending set_nextID set_db set_redis emit save_callback guarded
         option_fmap option_map fmap pending nextID db redis trace error_line];
    cbn [app]; rewrite <- ?app_assoc, ?app_nil_r; reflexivity.
Qed.

Lemma destroy_run s this callback error1 error2 :
  pending s = [] →
  run [Call (call_destroy this callback); Reply error1; Reply error2] s =
  {| db := db_delete (internalUserID this) (db s);
     nextID := nextID s;
     redis := redis (served (del (id this)) error2 (served (srem (id this)) error1 s));
     pending := [];
     trace := trace s ++ error_line error_removing_mapping_ID error1
                      ++ error_line error_removing_mapping error2
                      ++ match callback with
                         | Some f =>
                             [Invoke f
                                (destroyed error2
                                   (bool_decide
                                      (is_Some (db_read (internalUserID this) (db s)))))]
                         | None => []
                         end |}.
Proof.
  intros Hs. destruct s as [d n r q t]. cbn [pending] in Hs. subst q.
  cbn [db nextID trace].
  destruct (db_read (internalUserID this) d) as [x|] eqn:Hget.
  - rewrite bool_decide_true by done.
    destruct error1, error2, callback;
      cbv [run foldl step call destroy send reply on_reply command served log_error
           set_pending set_nextID set_db set_redis emit destroy_callback guarded
           option_fmap option_map fmap pending nextID db redis trace error_line];
      cbn [app]; rewrite Hget; cbn [app db trace];
      rewrite <- ?app_assoc, ?app_nil_r; reflexivity.
  - rewrite bool_decide_false by (by intros [? ?]).
    rewrite (db_delete_absent _ _ (db_read_None _ _ Hget)).
    destruct error1, error2, callback;
      cbv [run foldl step call destroy send reply on_reply command served log_error
           set_pending set_nextID set_db set_redis emit destroy_callback guarded
           option_fmap option_map fmap pending nextID db redis trace error_line];
      cbn [app]; rewrite Hget; cbn [app db trace];
      rewrite <- ?app_assoc, ?app_nil_r; reflexivity.
Qed.

Lemma db_replace_same k v (d : Index) : db_get k d = Some v → db_replace k v d = d.
Proof.
  induction d as [|[k' x] d IH]; [done|]. cbn [db_get db_replace].
  destruct (decide (k' = k)); [by intros [= ->]|]. intros Hget. by rewrite IH.
Qed.

Lemma db_set_again k v (d : Index) : db_set k v (db_set k v d) = db_set k v d.
Proof.
  unfold db_set at 1. rewrite db_get_set, decide_True by done.
  apply db_replace_same. by rewrite db_get_set, decide_True.
Qed.

(** X7. In a state within the model, [destroy] of a mapping with a safe
    id and its two replies: the index loses the entry stored under the
    mapping's [internalUserID], whichever mapping that entry holds, and no
    other; the store loses the mapping's own id and hash as far as the
    commands are acknowledged; the callback receives the error of DEL and
    whether [db[this.internalUserID]] was truthy: whether the index had
    such an entry or the name is one that [db] inherits. *)
Theorem destroy_deletes_the_entry_of_its_user s this f error1 error2 :
  within_model s →
  pending s = [] →
  safe (id this) →
  let user := internalUserID this in
  let s' := run [Call (call_destroy this (Some f)); Reply error1; Reply error2] s in
  getExternalUserID user s' = None
  ∧ (∀ u, u ≠ user → getExternalUserID u s' = getExternalUserID u s)
  ∧ redis s' = redis (served (del (id this)) error2 (served (srem (id this)) error1 s))
  ∧ trace s' =
    trace s ++ error_line error_removing_mapping_ID error1
            ++ error_line error_removing_mapping error2
            ++ [Invoke f (destroyed error2
                            (bool_decide (is_Some (db_get user (db s))
                                          ∨ user ∈ Object_prototype)))].
Proof.
  intros Hmodel Hs _ user s'. destruct (within_model_index_ok s Hmodel) as [Hnd _].
  unfold s'. rewrite (destroy_run s this (Some f)) by done.
  cbn [db redis trace]. split_and!; [| |done|].
  - rewrite getExternalUserID_db. cbn [db]. by rewrite db_get_delete, decide_True.
  - intros u Hu. rewrite !getExternalUserID_db. cbn [db].
    by rewrite db_get_delete, decide_False.
  - do 6 f_equal. fold user. apply bool_decide_ext. unfold db_read.
    destruct (db_get user (db s)) as [x|].
    + split; [by left | by eexists].
    + case_decide; [split; [by right | by eexists]|].
      split; [by intros [? ?] | by intros [[? ?]|?]].
Qed.

Lemma destroy_deletes_the_entry_of_its_user_witness :
  let this := mkUserMapping 7 "e7" "u2" "m9" in
  let s' := run [Call (call_destroy this (Some 1%nat)); Reply None; Reply None]
                two_users in
  getExternalUserID "u2" s' = None
  ∧ (∀ u, u ≠ "u2" → getExternalUserID u s' = getExternalUserID u two_users)
  ∧ redis s' = redis (served (del 7) None (served (srem 7) None two_users))
  ∧ trace s' =
    trace two_users ++ error_line error_removing_mapping_ID None
            ++ error_line error_removing_mapping None
            ++ [Invoke 1%nat (destroyed None
                                (bool_decide (is_Some (db_get "u2" (db two_users))
                                              ∨ "u2" ∈ Object_prototype)))].
Proof.
  apply (destroy_deletes_the_entry_of_its_user
           two_users (mkUserMapping 7 "e7" "u2" "m9") 1%nat None None).
  - apply two_users_within_model.
  - reflexivity.
  - apply (bool_decide_unpack _). vm_compute. exact I.
Defined.

(** X8. In a state within the model, [destroy] called again on a mapping
    whose name is not one that [db] inherits, after the replies to the
    first call: the index stays as the first call left it and the second
    callback receives [false]. *)
Theorem destroy_again_reports_false s this callback f error1 error2 error3 error4 :
  within_model s →
  pending s = [] →
  internalUserID this ∉ Object_prototype →
  let s1 := run [Call (call_destroy this callback); Reply error1; Reply error2] s in
  let s2 := run [Call (call_destroy this (Some f)); Reply error3; Reply error4] s1 in
  db s2 = db s1
  ∧ trace s2 =
    trace s1 ++ error_line error_removing_mapping_ID error3
             ++ error_line error_removing_mapping error4
             ++ [Invoke f (destroyed error4 false)].
Proof.
  intros Hmodel Hs Hname s1 s2. destruct (within_model_index_ok s Hmodel) as [Hnd _].
  assert (pending s1 = []) as Hs1 by (unfold s1; by rewrite destroy_run).
  assert (db_get (internalUserID this) (db s1) = None) as Hget.
  { unfold s1. rewrite destroy_run by done. cbn [db].
    by rewrite db_get_delete, decide_True. }
  unfold s2. rewrite (destroy_run s1 this (Some f)) by done. cbn [db trace].
  rewrite (db_read_absent _ _ Hget), decide_False by done.
  split; [by apply db_delete_absent|].
  rewrite bool_decide_false; [done|]. by intros [? ?].
Qed.

Lemma destroy_again_reports_false_witness :
  let this := mkUserMapping 1 "e1" "u1" "m1" in
  let s1 := run [Call (call_destroy this None); Reply None; Reply None] two_users in
  let s2 := run [Call (call_destroy this (Some 2%nat)); Reply None;
                 Reply (Some "ETIMEDOUT")] s1 in
  db s2 = db s1
  ∧ trace s2 =
    trace s1 ++ error_line error_removing_mapping_ID None
             ++ error_line error_removing_mapping (Some "ETIMEDOUT")
             ++ [Invoke 2%nat (destroyed (Some "ETIMEDOUT") false)].
Proof.
  apply (destroy_again_reports_false two_users (mkUserMapping 1 "e1" "u1" "m1")
           None 2%nat None None None (Some "ETIMEDOUT")).
  - apply two_users_within_model.
  - reflexivity.
  - apply (bool_decide_unpack _). vm_compute. exact I.
Defined.

(** X9. In a state within the model, [save] of a mapping with a safe id
    and a name that is not ["__proto__"], and its two replies: whatever
    the replies are, the mapping is in the index under its
    [internalUserID] and the other entries are as they were; [nextID] is
    left alone, also when the mapping's id is not below it; each command
    that is acknowledged has taken effect in the store; the callback
    receives the error of SADD (not that of HMSET) and the mapping. *)
Theorem save_indexes_and_reports_the_sadd_error s this f error1 error2 :
  within_model s →
  pending s = [] →
  internalUserID this ≠ "__proto__" →
  safe (id this) →
  let s' := run [Call (call_save this (Some f)); Reply error1; Reply error2] s in
  pending s' = []
  ∧ db_get (internalUserID this) (db s') = Some this
  ∧ (∀ u, u ≠ internalUserID this → db_get u (db s') = db_get u (db s))
  ∧ nextID s' = nextID s
  ∧ redis s' = redis (served (sadd (id this)) error2
                        (served (hmset (id this) (toRedis this)) error1 s))
  ∧ trace s' =
    trace s ++ error_line error_saving_mapping error1
            ++ error_line error_saving_mapping_ID error2
            ++ [Invoke f (saved error2 this)].
Proof.
  intros _ Hs _ _ s'. unfold s'. rewrite (save_run s this (Some f)) by done.
  cbn [pending db nextID redis trace]. split_and!; try done.
  - by rewrite db_get_set, decide_True.
  - intros u Hu. by rewrite db_get_set, decide_False.
Qed.

Lemma save_indexes_and_reports_the_sadd_error_witness :
  let this := mkUserMapping 9 "e9" "u9" "m1" in
  let s' := run [Call (call_save this (Some 3%nat)); Reply (Some "ETIMEDOUT"); Reply None]
                two_users in
  pending s' = []
  ∧ db_get "u9" (db s') = Some this
  ∧ (∀ u, u ≠ "u9" → db_get u (db s') = db_get u (db two_users))
  ∧ nextID s' = nextID two_users
  ∧ redis s' = redis (served (sadd 9) None
                        (served (hmset 9 (toRedis this)) (Some "ETIMEDOUT") two_users))
  ∧ trace s' =
    trace two_users ++ error_line error_saving_mapping (Some "ETIMEDOUT")
            ++ error_line error_saving_mapping_ID None
            ++ [Invoke 3%nat (saved None this)].
Proof.
  apply (save_indexes_and_reports_the_sadd_error
           two_users (mkUserMapping 9 "e9" "u9" "m1") 3%nat (Some "ETIMEDOUT") None).
  - apply two_users_within_model.
  - reflexivity.
  - discriminate.
  - apply (bool_decide_unpack _). vm_compute. exact I.
Defined.

(** X10. [save] is idempotent: saving again a mapping whose [save] was
    acknowledged leaves the index and the store as they are, whatever the
    replies to the second [save]. *)
Theorem save_again_changes_nothing s this callback1 callback2 error3 error4 :
  pending s = [] →
  let s1 := run [Call (call_save this callback1); Reply None; Reply None] s in
  let s2 := run [Call (call_save this callback2); Reply error3; Reply error4] s1 in
  db s2 = db s1 ∧ redis s2 = redis s1 ∧ nextID s2 = nextID s1.
Proof.
  intros Hs s1 s2.
  assert (s1 = run [Call (call_save this callback1); Reply None; Reply None] s) as Hs1
    by done.
  rewrite save_run in Hs1 by done.
  unfold s2. rewrite (save_run s1 this callback2) by (by rewrite Hs1).
  cbn [db nextID]. split_and!; [|  |done].
  - rewrite Hs1. cbn [db]. apply db_set_again.
  - rewrite Hs1. cbn [served redis set_redis execute userMaps userMap].
    set (l := if decide (id this ∈ userMaps (redis s)) then userMaps (redis s)
              else userMaps (redis s) ++ [id this]).
    assert (id this ∈ l) as Hin
      by (unfold l; case_decide; [done | apply elem_of_app; right; by left]).
    destruct error3, error4;
      cbn [served redis set_redis execute userMaps userMap];
      rewrite ?insert_insert_eq, ?(decide_True (P := id this ∈ l)) by done; done.
Qed.

Lemma save_again_changes_nothing_witness :
  let this := mkUserMapping 9 "e9" "u9" "m1" in
  let s1 := run [Call (call_save this None); Reply None; Reply None] two_users in
  let s2 := run [Call (call_save this None); Reply None; Reply (Some "ETIMEDOUT")] s1 in
  db s2 = db s1 ∧ redis s2 = redis s1 ∧ nextID s2 = nextID s1.
Proof.
  apply (save_again_changes_nothing two_users (mkUserMapping 9 "e9" "u9" "m1")
           None None None (Some "ETIMEDOUT")).
  reflexivity.
Defined.

(** ** [resync] when reads fail *)

(** X11. When SMEMBERS is answered with an error, [resync] (and so
    [initialize]) logs it and throws on [mappings.forEach]: nothing is
    read, the index and [nextID] stay as they are, [callback] is not
    called, and no later reply changes that. *)
Theorem resync_throws_when_smembers_fails s callback e errors :
  pending s = [] →
  run (Call (call_resync callback) :: Reply (Some e) :: (Reply <$> errors)) s =
  {| db := db s; nextID := nextID s; redis := redis s; pending := [];
     trace := trace s ++ [Logger_error error_getting_list e; TypeError] |}
  ∧ run (Call (call_initialize callback) :: Reply (Some e) :: (Reply <$> errors)) s =
    run (Call (call_resync callback) :: Reply (Some e) :: (Reply <$> errors)) s.
Proof.
  intros Hs. split; [|done].
  change (run (Call (call_resync callback) :: Reply (Some e) :: (Reply <$> errors)) s)
    with (run (Reply <$> errors)
            (run [Call (call_resync callback); Reply (Some e)] s)).
  assert (run [Call (call_resync callback); Reply (Some e)] s =
          {| db := db s; nextID := nextID s; redis := redis s; pending := [];
             trace := trace s ++ [Logger_error error_getting_list e; TypeError] |})
    as ->.
  { destruct s as [d n r q t]. cbn [pending] in Hs. subst q.
    cbv [run foldl step call resync send reply on_reply log_error set_pending emit
         pending nextID db redis trace].
    cbn [app]. by rewrite <- app_assoc. }
  by apply replies_idle.
Qed.

Lemma resync_throws_when_smembers_fails_witness :
  run (Call (call_resync (Some 1%nat)) :: Reply (Some "ECONNRESET")
         :: (Reply <$> [None; None])) two_users =
  {| db := db two_users; nextID := nextID two_users; redis := redis two_users;
     pending := [];
     trace := trace two_users
                ++ [Logger_error error_getting_list "ECONNRESET"; TypeError] |}
  ∧ run (Call (call_initialize (Some 1%nat)) :: Reply (Some "ECONNRESET")
           :: (Reply <$> [None; None])) two_users =
    run (Call (call_resync (Some 1%nat)) :: Reply (Some "ECONNRESET")
           :: (Reply <$> [None; None])) two_users.
Proof.
  apply (resync_throws_when_smembers_fails two_users (Some 1%nat) "ECONNRESET"
           [None; None]).
  reflexivity.
Defined.

Lemma task_failed key tasks callback e s :
  pending s = [] →
  run [Reply (Some e)] (series (key :: tasks) callback s) =
  series tasks callback
    (emit (Done None) (emit (Logger_error error_getting_information e) s)).
Proof.
  intros Hs. destruct s as [d n r q t]. simpl in *. subst q. done.
Qed.

Lemma fetched_cons store reads key keys :
  omap (fetched store reads) (key :: keys) =
  match fetched store reads key with
  | Some data => data :: omap (fetched store reads) keys
  | None => omap (fetched store reads) keys
  end.
Proof. done. Qed.

(** The tasks of [resync], run in sequence, with reads that may fail. *)
Lemma series_answers reads writes callback tasks s :
  pending s = [] →
  (∀ key, key ∈ tasks → key ∈ userMaps (redis s)) →
  (∀ key data, key ∈ tasks → userMap (redis s) !! key = Some data → data_id data = key) →
  let s' := run (Reply <$> flat_map (task_answers (redis s) reads writes) tasks)
                (series tasks callback s) in
  pending s' = []
  ∧ redis s' = redis s
  ∧ db s' = settle (db s) (fromRedis <$> omap (fetched (redis s) reads) tasks)
  ∧ nextID s' = raised (nextID s) (fromRedis <$> omap (fetched (redis s) reads) tasks)
  ∧ dones (trace s') =
    dones (trace s) ++ ((λ key, fromRedis <$> fetched (redis s) reads key) <$> tasks)
  ∧ (∀ f, invocations f (trace s') =
          (invocations f (trace s) + if decide (callback = Some f) then 1 else 0)%nat)
  ∧ faults (trace s') = faults (trace s).
Proof.
  revert s. induction tasks as [|key tasks IH]; intros s Hs Hin Hid.
  - exact (series_run writes callback [] s Hs Hin Hid).
  - cbv zeta. set (R := run _ _).
    assert (key ∈ key :: tasks) as Hkey by left.
    assert (∀ k, k ∈ tasks → k ∈ key :: tasks) as Hsub by (intros; by right).
    rewrite fmap_cons, fetched_cons.
    assert (∀ s1, pending s1 = [] → redis s1 = redis s →
              run (Reply <$> task_answers (redis s) reads writes key)
                  (series (key :: tasks) callback s) = series tasks callback s1 →
              R = run (Reply <$> flat_map (task_answers (redis s1) reads writes) tasks)
                    (series tasks callback s1)) as Hstep.
    { intros s1 _ Hr HT. unfold R. cbn [flat_map]. rewrite fmap_app, run_app.
      by rewrite HT, Hr. }
    destruct (fetched (redis s) reads key) as [data|] eqn:Hget.
    + assert (reads key = None ∧ userMap (redis s) !! key = Some data) as [Hread Hhash]
        by (unfold fetched in Hget; by destruct (reads key)).
      pose proof (task_present key data tasks callback (writes key).1 (writes key).2 s
                    Hs Hhash (Hid _ _ Hkey Hhash) (Hin _ Hkey)) as HT.
      set (s1 := {| db := _ |}) in HT.
      rewrite (Hstep s1); [|done|done|by unfold task_answers; rewrite Hget].
      destruct (IH s1) as (H1 & H2 & H3 & H4 & H5 & H6 & H7); [done|auto|auto|].
      change (redis s1) with (redis s) in *.
      split_and!; try done.
      * rewrite H5. unfold s1. cbn [trace].
        rewrite !dones_app, !dones_error_line. simpl.
        by rewrite <- app_assoc.
      * intros f. rewrite H6. unfold s1. cbn [trace].
        rewrite !invocations_app, !invocations_error_line, invocations_cons.
        unfold invocations at 2. simpl. lia.
      * rewrite H7. unfold s1. cbn [trace].
        rewrite !faults_app, !faults_error_line, faults_cons.
        rewrite decide_False by done. unfold faults at 2. simpl. lia.
    + set (s1 := match reads key with
                 | Some e =>
                     emit (Done None) (emit (Logger_error error_getting_information e) s)
                 | None => emit (Done None) s
                 end).
      assert (pending s1 = [] ∧ redis s1 = redis s ∧ db s1 = db s ∧ nextID s1 = nextID s
              ∧ dones (trace s1) = dones (trace s) ++ [None]
              ∧ (∀ f, invocations f (trace s1) = invocations f (trace s))
              ∧ faults (trace s1) = faults (trace s))
        as (Hs1 & Hr1 & Hd1 & Hn1 & Hdone1 & Hinv1 & Hf1).
      { unfold s1. destruct (reads key); cbn [emit pending redis db nextID trace];
          split_and!; try done.
        all: try (rewrite !dones_app; simpl; by rewrite ?app_nil_r).
        all: try (intros f; rewrite !invocations_app; unfold invocations at 2 3;
                  simpl; lia).
        all: try (intros f; rewrite !invocations_app; unfold invocations at 2;
                  simpl; lia).
        all: try (rewrite !faults_app; unfold faults at 2 3; simpl; lia).
        all: rewrite !faults_app; unfold faults at 2; simpl; lia. }
      rewrite (Hstep s1); [|done|done|].
      2:{ unfold task_answers. rewrite Hget. unfold s1.
          destruct (reads key) as [e|] eqn:Hread.
          - by apply task_failed.
          - apply task_absent; [done|]. unfold fetched in Hget. by rewrite Hread in Hget. }
      destruct (IH s1) as (H1 & H2 & H3 & H4 & H5 & H6 & H7);
        [done | by rewrite Hr1; auto | by rewrite Hr1; auto |].
      rewrite Hr1, ?Hd1, ?Hn1 in *.
      split_and!; try done.
      * rewrite H5, Hdone1. by rewrite <- app_assoc.
      * intros f. by rewrite H6, Hinv1.
      * by rewrite H7, Hf1.
Qed.

(** X12. In a state within the model, with nothing pending and every
    hash that the set lists stored under the id it holds, [resync] when
    SMEMBERS succeeds and single reads fail: an id whose HGETALL fails, or
    that has no hash, is skipped with [done(null, null)]; the mappings of
    the other ids are stored in the index, in the order in which SMEMBERS
    listed them, over what the index holds, and [nextID] is raised above
    their ids; the store is left as it is; nothing throws and [callback]
    is called once. *)
Theorem resync_skips_what_it_cannot_read reads writes callback s :
  within_model s →
  pending s = [] →
  hashes_match (redis s) →
  let s' := run (Call (call_resync callback)
                   :: (Reply <$> resync_answers (redis s) reads writes)) s in
  let read_ok := omap (fetched (redis s) reads) (userMaps (redis s)) in
  pending s' = []
  ∧ redis s' = redis s
  ∧ db s' = settle (db s) (fromRedis <$> read_ok)
  ∧ nextID s' = raised (nextID s) (fromRedis <$> read_ok)
  ∧ dones (trace s') =
    dones (trace s) ++
    ((λ key, fromRedis <$> fetched (redis s) reads key) <$> userMaps (redis s))
  ∧ (∀ f, invocations f (trace s') =
          (invocations f (trace s) + if decide (callback = Some f) then 1 else 0)%nat)
  ∧ faults (trace s') = faults (trace s).
Proof.
  intros _ Hs Hm.
  assert (run (Call (call_resync callback)
                 :: (Reply <$> resync_answers (redis s) reads writes)) s
          = run (Reply <$> flat_map (task_answers (redis s) reads writes)
                             (userMaps (redis s)))
              (series (userMaps (redis s)) callback s)) as ->.
  { unfold resync_answers. rewrite fmap_cons.
    change (run (Call (call_resync callback) :: Reply None :: ?l) s)
      with (run l (reply None (resync callback s))).
    f_equal. destruct s as [d n r q t]. simpl in Hs. subst q. done. }
  apply series_answers; [done | done |].
  intros key data Hin. by apply Hm.
Qed.

Lemma hashes_own_id_match store : hashes_own_id store → hashes_match store.
Proof. intros Hown key data _ Hget. exact (Hown key data Hget). Qed.

Lemma resync_skips_what_it_cannot_read_witness :
  let s := two_users in
  let s' := run (Call (call_resync (Some 5%nat))
                   :: (Reply <$> resync_answers (redis s) first_read_fails
                                   no_write_errors)) s in
  let read_ok := omap (fetched (redis s) first_read_fails) (userMaps (redis s)) in
  pending s' = []
  ∧ redis s' = redis s
  ∧ db s' = settle (db s) (fromRedis <$> read_ok)
  ∧ nextID s' = raised (nextID s) (fromRedis <$> read_ok)
  ∧ dones (trace s') =
    dones (trace s) ++
    ((λ key, fromRedis <$> fetched (redis s) first_read_fails key) <$> userMaps (redis s))
  ∧ (∀ f, invocations f (trace s') =
          (invocations f (trace s) + if decide (Some 5%nat = Some f) then 1 else 0)%nat)
  ∧ faults (trace s') = faults (trace s).
Proof.
  apply (resync_skips_what_it_cannot_read first_read_fails no_write_errors (Some 5%nat)
           two_users).
  - apply two_users_within_model.
  - reflexivity.
  - apply hashes_own_id_match, (run_hashes_own_id _ (startup empty_store)).
    apply map_Forall_empty.
Defined.

(** ** What [resync] does to an index *)

Lemma db_get_settle u ms (d : Index) :
  db_get u (settle d ms) =
  match last (filter (λ m, internalUserID m = u) ms) with
  | Some m => Some m
  | None => db_get u d
  end.
Proof.
  induction ms as [|m ms IH] using rev_ind; [done|].
  rewrite settle_snoc, db_get_set, filter_app, filter_cons, filter_nil.
  destruct (decide (internalUserID m = u)) as [Hm|Hm].
  - by rewrite last_snoc.
  - by rewrite app_nil_r.
Qed.

Lemma settle_index_ok ms (d : Index) : index_ok d → index_ok (settle d ms).
Proof.
  revert d. induction ms as [|m ms IH]; intros d Hok; [done|].
  rewrite settle_cons. by apply IH, index_ok_set.
Qed.

Lemma settle_keys ms (d : Index) :
  (∀ m, m ∈ ms → is_Some (db_get (internalUserID m) d)) →
  (settle d ms).*1 = d.*1.
Proof.
  revert d. induction ms as [|m ms IH]; intros d Hin; [done|].
  rewrite settle_cons.
  destruct (Hin m) as [x Hx]; [by left|].
  rewrite IH.
  - unfold db_set. rewrite Hx. apply db_replace_keys.
  - intros m' Hm'. rewrite db_get_set. case_decide; [done|]. apply Hin. by right.
Qed.

(** Two indices with the same keys in the same order and the same value
    for each key are the same. *)
Lemma index_ext (d1 d2 : Index) :
  NoDup d1.*1 → d1.*1 = d2.*1 → (∀ k, db_get k d1 = db_get k d2) → d1 = d2.
Proof.
  revert d2. induction d1 as [|[k x] d1 IH]; intros [|[k' y] d2] Hnd Hkeys Hget;
    try done.
  rewrite !fmap_cons in Hkeys. cbn [fst] in Hkeys. injection Hkeys as <- Hkeys.
  rewrite fmap_cons in Hnd. apply NoDup_cons in Hnd as [Hk Hnd].
  pose proof (Hget k) as Hx. cbn [db_get] in Hx. rewrite !decide_True in Hx by done.
  injection Hx as <-. f_equal. apply IH; [done|done|].
  intros u. pose proof (Hget u) as Hu. cbn [db_get] in Hu.
  destruct (decide (k = u)) as [<-|]; [|done].
  assert (db_get k d1 = None) as -> by by apply db_get_None.
  symmetry. apply db_get_None. by rewrite <- Hkeys.
Qed.

Lemma settle_again ms (d : Index) :
  index_ok d → settle (settle d ms) ms = settle d ms.
Proof.
  intros Hok. apply index_ext.
  - by apply settle_index_ok, settle_index_ok.
  - apply settle_keys. intros m Hm. rewrite db_get_settle.
    destruct (last (filter (λ m', internalUserID m' = internalUserID m) ms))
      as [x|] eqn:Hlast; [done|].
    apply last_None in Hlast.
    assert (m ∈ filter (λ m', internalUserID m' = internalUserID m) ms) as Hin
      by by apply list_elem_of_filter.
    rewrite Hlast in Hin. by apply elem_of_nil in Hin.
  - intros k. rewrite !db_get_settle.
    by destruct (last (filter (λ m, internalUserID m = k) ms)).
Qed.

Lemma raised_fixed n ms : Forall (λ m, id m < n) ms → raised n ms = n.
Proof.
  induction 1 as [|m ms Hm _ IH]; [done|].
  change (raised n (m :: ms)) with (raised (Z.max n (id m + 1)) ms).
  by rewrite Z.max_l by lia.
Qed.

Lemma raised_again n ms : raised (raised n ms) ms = raised n ms.
Proof. apply raised_fixed, Forall_forall. intros m Hm. by apply raised_above. Qed.

(** X13. In a state within the model, with nothing pending and every
    hash that the set lists stored under the id it holds: after a [resync]
    whose reads succeed, the mapping of a user is the one rebuilt from the
    record that SMEMBERS listed last among the records of that user; a
    user without record in the store keeps the mapping that the index
    had: [resync] adds and overwrites, it removes nothing. *)
Theorem resync_last_listed_record_wins writes callback s u :
  within_model s →
  pending s = [] →
  hashes_match (redis s) →
  let s' := run (Call (call_resync callback)
                   :: (Reply <$> resync_replies (redis s) writes)) s in
  getExternalUserID u s' =
  match last (filter (λ data, data_internalUserID data = u) (records (redis s))) with
  | Some data => Some (data_externalUserID data)
  | None => getExternalUserID u s
  end.
Proof.
  intros _ Hs Hm s'.
  destruct (resync_run writes callback s Hs Hm) as (_ & _ & Hdb & _).
  fold s' in Hdb. rewrite !getExternalUserID_db, Hdb, db_get_settle.
  assert (filter (λ m, internalUserID m = u) (fromRedis <$> records (redis s)) =
          fromRedis <$> filter (λ data, data_internalUserID data = u) (records (redis s)))
    as ->.
  { clear Hdb. induction (records (redis s)) as [|data l IH]; [done|].
    rewrite fmap_cons, !filter_cons. cbn [fromRedis internalUserID].
    case_decide; [rewrite fmap_cons|]; by rewrite IH. }
  rewrite fmap_last.
  by destruct (last (filter (λ data, data_internalUserID data = u) (records (redis s)))).
Qed.

Lemma resync_last_listed_record_wins_witness :
  let s' := run (Call (call_resync None)
                   :: (Reply <$> resync_replies (redis same_user_twice) no_write_errors))
                same_user_twice in
  getExternalUserID "u1" s' =
  match last (filter (λ data, data_internalUserID data = "u1")
                (records (redis same_user_twice))) with
  | Some data => Some (data_externalUserID data)
  | None => getExternalUserID "u1" same_user_twice
  end.
Proof.
  apply (resync_last_listed_record_wins no_write_errors None same_user_twice "u1").
  - apply same_user_twice_within_model.
  - reflexivity.
  - apply hashes_own_id_match, (run_hashes_own_id _ (startup empty_store)).
    apply map_Forall_empty.
Defined.

(** X14. [resync] is idempotent.  In a state within the model, with
    nothing pending and every hash that the set lists stored under the id
    it holds, let the reads of two [resync]s succeed, the second run after
    the first has finished and with SMEMBERS listing the set in the same
    order: the second changes neither the index nor [nextID] nor the
    store, whatever the replies to the writes of either. *)
Theorem resync_again_changes_nothing writes1 writes2 callback1 callback2 s :
  within_model s →
  pending s = [] →
  hashes_match (redis s) →
  let s1 := run (Call (call_resync callback1)
                   :: (Reply <$> resync_replies (redis s) writes1)) s in
  let s2 := run (Call (call_resync callback2)
                   :: (Reply <$> resync_replies (redis s1) writes2)) s1 in
  pending s2 = [] ∧ db s2 = db s1 ∧ nextID s2 = nextID s1 ∧ redis s2 = redis s1.
Proof.
  intros Hmodel Hs Hm s1 s2.
  pose proof (within_model_index_ok s Hmodel) as Hok.
  destruct (resync_run writes1 callback1 s Hs Hm) as (Hend1 & Hr1 & Hdb1 & Hn1 & _).
  fold s1 in Hend1, Hr1, Hdb1, Hn1.
  assert (hashes_match (redis s1)) as Hm1 by (by rewrite Hr1).
  destruct (resync_run writes2 callback2 s1 Hend1 Hm1) as (Hend2 & Hr2 & Hdb2 & Hn2 & _).
  fold s2 in Hend2, Hr2, Hdb2, Hn2.
  split_and!; [done| |  |done].
  - rewrite Hdb2, Hr1, Hdb1. by apply settle_again.
  - rewrite Hn2, Hr1, Hn1. apply raised_again.
Qed.

Lemma resync_again_changes_nothing_witness :
  let s1 := run (Call (call_resync None)
                   :: (Reply <$> resync_replies (redis same_user_twice) no_write_errors))
                same_user_twice in
  let s2 := run (Call (call_resync (Some 1%nat))
                   :: (Reply <$> resync_replies (redis s1) no_write_errors)) s1 in
  pending s2 = [] ∧ db s2 = db s1 ∧ nextID s2 = nextID s1 ∧ redis s2 = redis s1.
Proof.
  apply (resync_again_changes_nothing no_write_errors no_write_errors None (Some 1%nat)
           same_user_twice).
  - apply same_user_twice_within_model.
  - reflexivity.
  - apply hashes_own_id_match, (run_hashes_own_id _ (startup empty_store)).
    apply map_Forall_empty.
Defined.

Lemma filter_none {A} (P : A → Prop) `{!∀ x, Decision (P x)} (l : list A) :
  Forall (λ x, ¬ P x) l → filter P l = [].
Proof.
  induction 1 as [|x l Hx Hl IH]; [done|].
  by rewrite filter_cons, decide_False.
Qed.

(** X15. In a state within the model, with nothing pending, every hash
    that the set lists stored under the id it holds, [nextID] below 2^53
    and no hash stored under [nextID]: an [addMapping], for a name that is
    not ["__proto__"], whose HMSET is answered with an error is in the
    index of the running process and lost at the next start, where
    [resync], its reads succeeding, rebuilds the index that it would have
    rebuilt before the call. *)
Theorem addMapping_with_failed_hmset_is_lost_at_restart
    s i e m callback error error2 writes callback' :
  within_model s →
  pending s = [] →
  hashes_match (redis s) →
  i ≠ "__proto__" →
  nextID s < 9007199254740992 →
  userMap (redis s) !! nextID s = None →
  let s1 := run [Call (call_addMapping i e m callback);
                 Reply (Some error); Reply error2] s in
  let s2 := run (Call (call_resync callback')
                   :: (Reply <$> resync_replies (redis s1) writes))
                (startup (redis s1)) in
  getExternalUserID i s1 = Some e
  ∧ db s2 = settle [] (fromRedis <$> records (redis s))
  ∧ ((∀ data, data ∈ records (redis s) → data_internalUserID data ≠ i) →
     getExternalUserID i s2 = None).
Proof.
  intros _ Hs Hm _ _ Hfree s1 s2.
  pose proof (addMapping_run s i e m callback (Some error) error2 Hs) as Hadd.
  cbv zeta in Hadd. fold s1 in Hadd.
  assert (userMap (redis s1) = userMap (redis s)) as Hhashes
    by (rewrite Hadd; by destruct error2).
  assert (userMaps (redis s1) = userMaps (redis s)
          ∨ userMaps (redis s1) = userMaps (redis s) ++ [nextID s]) as Hmembers.
  { rewrite Hadd. destruct error2; [by left|].
    cbn [served redis set_redis execute userMaps]. case_decide; [by left | by right]. }
  assert (records (redis s1) = records (redis s)) as Hrecords.
  { unfold records, read. rewrite Hhashes.
    destruct Hmembers as [->| ->]; [done|].
    rewrite omap_app. cbn [omap list_omap]. rewrite Hfree. apply app_nil_r. }
  assert (hashes_match (redis s1)) as Hm1.
  { intros key data Hin Hget. rewrite Hhashes in Hget.
    destruct Hmembers as [Heq|Heq]; rewrite Heq in Hin; [by apply Hm|].
    apply elem_of_app in Hin as [Hin|Hin]; [by apply Hm|].
    apply list_elem_of_singleton in Hin as ->. by rewrite Hfree in Hget. }
  assert (db s2 = settle [] (fromRedis <$> records (redis s1))) as Hdb
    by exact (proj1 (proj2 (proj2
                (resync_run writes callback' (startup (redis s1)) eq_refl Hm1)))).
  rewrite Hrecords in Hdb.
  split_and!; [|done|].
  - rewrite getExternalUserID_db, Hadd. cbn [db]. by rewrite db_get_set, decide_True.
  - intros Hother. rewrite getExternalUserID_db, Hdb, db_get_settle.
    rewrite (filter_none (λ m, internalUserID m = i)); [done|].
    apply Forall_forall. intros m' [data [-> Hdata]]%list_elem_of_fmap.
    by apply Hother.
Qed.

Lemma addMapping_with_failed_hmset_is_lost_at_restart_witness :
  let s1 := run [Call (call_addMapping "u3" "e3" "m2" None);
                 Reply (Some "ETIMEDOUT"); Reply None] two_users in
  let s2 := run (Call (call_resync None)
                   :: (Reply <$> resync_replies (redis s1) no_write_errors))
                (startup (redis s1)) in
  getExternalUserID "u3" s1 = Some "e3"
  ∧ db s2 = settle [] (fromRedis <$> records (redis two_users))
  ∧ ((∀ data, data ∈ records (redis two_users) → data_internalUserID data ≠ "u3") →
     getExternalUserID "u3" s2 = None).
Proof.
  apply (addMapping_with_failed_hmset_is_lost_at_restart
           two_users "u3" "e3" "m2" None "ETIMEDOUT" None no_write_errors None).
  - apply two_users_within_model.
  - reflexivity.
  - apply hashes_own_id_match, (run_hashes_own_id _ (startup empty_store)).
    apply map_Forall_empty.
  - discriminate.
  - reflexivity.
  - reflexivity.
Defined.


(** ** No mapping under [__proto__] *)

Lemma call_no_proto o s :
  names_plainly (Call o) → no_proto s → no_proto (call o s).
Proof.
  intros Ho (Hstore & Hq & Hd).
  destruct (call_parts o s) as (Hdb & _ & Hredis).
  unfold no_proto. rewrite Hdb, Hredis. split_and!; [done| |done].
  destruct o as [i e m cb|i cb|m cb|cb|cb|this cb|this cb]; cbn [call].
  - apply Forall_app. split; [done|]. by repeat constructor.
  - rewrite removeMapping_state. cbn [pending set_pending].
    apply Forall_app. split; [done|]. unfold destroys.
    apply Forall_fmap, Forall_forall. by intros.
  - rewrite removeMappingMeetingId_spec. cbv zeta.
    assert (Forall saves_plainly
              (pending s ++
               destroys (λ mapping, meetingId mapping = m)
                 (λ this, destroy_removed_meeting (scanned_last (db s) this) cb) (db s)))
      as Hsent.
    { apply Forall_app. split; [done|]. unfold destroys.
      apply Forall_fmap, Forall_forall. by intros. }
    by destruct cb.
  - apply Forall_app. split; [done|]. by repeat constructor.
  - apply Forall_app. split; [done|]. by repeat constructor.
  - apply Forall_app. split; [done|]. by repeat constructor.
  - apply Forall_app. split; [done|]. by repeat constructor.
Qed.

Lemma reply_no_proto error s : no_proto s → no_proto (reply error s).
Proof.
  intros (Hstore & Hq & Hd). unfold reply.
  destruct (pending s) as [|p q] eqn:Hp; [by split_and!; rewrite ?Hp|].
  apply Forall_cons in Hq as [Hhead Hq].
  destruct (on_reply_parts p error (set_pending q s)) as (Hdb & _ & Hredis & Hsent).
  unfold no_proto. rewrite Hdb, Hredis, Hsent. cbn [db pending set_pending].
  assert (map_Forall (λ _ data, data_internalUserID data ≠ "__proto__")
            (userMap (redis (served (command p) error (set_pending q s))))) as Hstore'.
  { destruct error; [done|]. cbn [served redis set_redis set_pending].
    destruct p; cbn [command execute userMap]; try done.
    - by apply map_Forall_insert_2.
    - by apply map_Forall_delete. }
  split_and!; [done| |].
  - apply Forall_app. split; [done|].
    destruct p as [this cb|this [[f|i m cb|m tasks cb]|]|this cb|this cb|cb|key tasks cb];
      cbn [sent]; try by repeat constructor.
    + destruct tasks; by repeat constructor.
    + destruct error; [by constructor|].
      destruct (userMaps (redis (set_pending q s))); by repeat constructor.
    + cbn [redis set_pending].
      destruct error; [destruct tasks; by repeat constructor|].
      destruct (userMap (redis s) !! key) as [data|] eqn:Hget;
        [|destruct tasks; by repeat constructor].
      repeat constructor. exact (Hstore key data Hget).
  - destruct p as [this cb|this cb|this cb|this cb|cb|key tasks cb]; try done.
    + rewrite <- db_get_None, db_get_set, decide_False by done. by apply db_get_None.
    + intros Hin. apply Hd. eapply elem_of_sublist; [exact Hin | apply db_delete_keys].
Qed.

(** A process that is passed no ["__proto__"] never stores a mapping under
    that name: the assignment [db["__proto__"] = this], which [db_set]
    does not describe, is not run. *)
Lemma plain_names_no_proto store actions :
  plain_names store actions → no_proto (run actions (startup store)).
Proof.
  intros [Hstore Hactions].
  assert (no_proto (startup store)) as Hstart.
  { split_and!; [done | constructor | apply not_elem_of_nil]. }
  revert Hstart. generalize (startup store). clear Hstore.
  induction Hactions as [|a actions Ha _ IH]; intros s Hs; [done|].
  apply IH. destruct a as [o|error]; [by apply call_no_proto | by apply reply_no_proto].
Qed.

Lemma within_model_no_proto s : within_model s → "__proto__" ∉ (db s).*1.
Proof.
  intros (store & actions & [Hnames _] & ->).
  by destruct (plain_names_no_proto store actions Hnames) as (_ & _ & ?).
Qed.

(** ** Invariants of the module *)

(** X16. Along any run, from a store in which every hash is stored under
    the id it holds, every hash of the store is stored under the id it
    holds: [save] writes [toRedis()] under the key of [this.id], also
    when [save] is called on a mapping of the caller's own. So the hashes
    that the set lists are such at every point, which is what [resync]
    needs to leave the store as it is. *)
Theorem store_hashes_hold_their_own_id store actions :
  hashes_own_id store →
  hashes_own_id (redis (run actions (startup store)))
  ∧ hashes_match (redis (run actions (startup store))).
Proof.
  intros Hown.
  assert (hashes_own_id (redis (run actions (startup store)))) as Hrun
    by exact (run_hashes_own_id actions (startup store) Hown).
  split; [done | by apply hashes_own_id_match].
Qed.

Lemma store_hashes_hold_their_own_id_witness :
  hashes_own_id (redis (run three_adds (startup empty_store)))
  ∧ hashes_match (redis (run three_adds (startup empty_store))).
Proof.
  apply (store_hashes_hold_their_own_id empty_store three_adds).
  apply map_Forall_empty.
Defined.



(** X18. At every point of every run in which no mapping is stored under
    ["__proto__"], the lookup and the listing agree:
    [getExternalUserID(u)] is [e] exactly when [allSync()] lists a mapping
    of user [u] with [externalUserID] [e]. *)
Theorem getExternalUserID_agrees_with_allSync store actions u e :
  plain_names store actions →
  let s := run actions (startup store) in
  getExternalUserID u s = Some e ↔
  ∃ m, m ∈ allSync s ∧ internalUserID m = u ∧ externalUserID m = e.
Proof.
  intros _ s.
  assert (index_ok (db s)) as [Hnd Hkey] by apply run_index_ok, index_ok_nil.
  rewrite getExternalUserID_db. split.
  - destruct (db_get u (db s)) as [m|] eqn:Hget; [|done]. intros [= <-].
    apply db_get_Some_elem in Hget. exists m. split_and!; [|by apply Hkey|done].
    unfold allSync. apply list_elem_of_fmap. by exists (u, m).
  - intros (m & Hin & Hu & He). unfold allSync in Hin.
    apply list_elem_of_fmap in Hin as ([k m'] & -> & Hin). cbn [snd] in *.
    rewrite <- (Hkey k m' Hin) in Hin. rewrite Hu in Hin.
    by rewrite (db_get_elem u m' (db s) Hnd Hin), <- He.
Qed.

Lemma getExternalUserID_agrees_with_allSync_witness :
  let s := run three_adds (startup empty_store) in
  getExternalUserID "u2" s = Some "e2" ↔
  ∃ m, m ∈ allSync s ∧ internalUserID m = "u2" ∧ externalUserID m = "e2".
Proof.
  apply (getExternalUserID_agrees_with_allSync empty_store three_adds "u2" "e2").
  apply (bool_decide_unpack _). vm_compute. exact I.
Defined.

(** ** The error log *)

Lemma errors_logged_app t1 t2 :
  errors_logged (t1 ++ t2) = errors_logged t1 ++ errors_logged t2.
Proof. apply filter_app. Qed.

Lemma errors_logged_error_line message error :
  errors_logged (error_line message error) = error_line message error.
Proof. by destruct error. Qed.

Lemma errors_logged_snoc t e :
  errors_logged (t ++ [e]) = errors_logged t ++ (if is_error e then [e] else []).
Proof. rewrite errors_logged_app. by destruct e. Qed.

Ltac errors_logged_step :=
  cbn [on_reply series save_callback destroy_callback served log_error set_db set_redis
       set_nextID set_pending send save emit guarded trace command error_message
       error_line];
  rewrite ?errors_logged_snoc; cbn [is_error]; rewrite ?app_nil_r.

Lemma series_errors_logged tasks callback s :
  errors_logged (trace (series tasks callback s)) = errors_logged (trace s).
Proof. destruct tasks, callback; by errors_logged_step. Qed.

Lemma on_reply_errors_logged p error s :
  errors_logged (trace (on_reply p error s)) =
  errors_logged (trace s) ++ error_line (error_message p) error.
Proof.
  destruct p as [this cb|this cb|this cb|this cb|cb|key tasks cb].
  - destruct error; by errors_logged_step.
  - destruct cb as [[f|i mapping [f|]|mapping tasks cb]|], error;
      cbn [on_reply save_callback]; rewrite ?series_errors_logged;
      try case_decide; by errors_logged_step.
  - destruct error; by errors_logged_step.
  - cbn [on_reply].
    destruct (db_read _ _), cb as [[f|i mapping [f|]|mapping [f|]]|], error;
      by errors_logged_step.
  - destruct error; cbn [on_reply]; rewrite ?series_errors_logged;
      by errors_logged_step.
  - cbn [on_reply]. destruct error; [|destruct (userMap _ !! key)];
      cbn iota; rewrite ?series_errors_logged; by errors_logged_step.
Qed.

Lemma call_errors_logged o s :
  errors_logged (trace (call o s)) = errors_logged (trace s).
Proof.
  destruct o as [i e m cb|i cb|m cb|cb|cb|this cb|this cb]; try done.
  - cbn [call]. by rewrite removeMapping_state.
  - cbn [call]. rewrite removeMappingMeetingId_spec. cbv zeta.
    destruct cb; by errors_logged_step.
Qed.

(** X19. Every reply that is an error and reaches a command is logged
    with [Logger.error] exactly once, with the message of that command's
    closure and in the order of the replies; nothing else is logged as an
    error, whatever the operations called and the callbacks given. *)
Theorem every_store_error_is_logged_once actions s :
  errors_logged (trace (run actions s)) = errors_logged (trace s) ++ failures actions s.
Proof.
  revert s. induction actions as [|a actions IH]; intros s.
  - by rewrite app_nil_r.
  - change (run (a :: actions) s) with (run actions (step s a)).
    rewrite IH. cbn [failures]. rewrite app_assoc. f_equal.
    destruct a as [o|error]; cbn [step].
    + rewrite call_errors_logged. by rewrite app_nil_r.
    + unfold reply. destruct (pending s) as [|p q]; [by destruct error; rewrite app_nil_r|].
      rewrite on_reply_errors_logged. by destruct error.
Qed.

(** ** A removal while the [save] is pending *)


